(** * Infinite Adventure: the turn-advance protocol

    A shallow embedding of the turn controller of [App.tsx], of the
    backend wrappers of [services/gemini.ts] and of the data model of
    [types.ts], with the properties of the specification stated over it.

    Conventions of the embedding.
    - A TypeScript optional field [f?: T] is an [option T]; [None] stands
      for [undefined] and, where the schema says nullable, for [null].
    - JavaScript truthiness is written out: the empty string, [null] and
      [undefined] are falsy, every other string and every object is truthy.
    - [Date.now()] is an integer read from the environment; every read is an
      argument of the handler that performs it.
    - An [async] function is cut at its [await]: the part before it is one
      function, the continuation another, and the call in between is an
      entry of the list of outstanding calls.
    - A [throw] is the [Throw] completion; [try]/[catch] is [try_catch].
    - What [JSON.parse] returns is a [Js.Json] value, of any shape.
    - The state of the component is typed as [types.ts] declares it. A
      parsed value that does not have the members of the schema at their
      types cannot be held by it: [readStoryResult] ends such a turn as a
      continuation that throws, and the properties of completed turns are
      stated for values that [asStoryResult] reads. *)

From stdpp Require Import base decidable option list strings gmap pretty.
From Stdlib Require Import ZArith QArith_base Ascii.

Open Scope string_scope.
Open Scope list_scope.

#[local] Set Warnings "-clear-no-such-hyp".

(** ** JavaScript values used by the code *)

Module Js.

(** Truthiness of a string: only the empty string is falsy. *)
Definition truthy (s : string) : bool := bool_decide (s ≠ "").

(** Truthiness of a possibly absent string. *)
Definition truthy_opt (o : option string) : bool :=
  match o with
  | Some s => truthy s
  | None => false
  end.

(** Truthiness of a possibly absent boolean. *)
Definition truthy_flag (o : option bool) : bool :=
  match o with
  | Some b => b
  | None => false
  end.

(** [a || b] on a nullable string [a] and a string [b]. *)
Definition or_else (a : option string) (b : string) : string :=
  if truthy_opt a then default b a else b.

(** [l.slice(-n)]: the last [n] elements, all of them when there are
    fewer. *)
Definition slice_last {A} (n : nat) (l : list A) : list A :=
  drop (length l - n) l.

(** [l.join(sep)]. *)
Definition join (sep : string) (l : list string) : string :=
  String.concat sep l.

(** The line feed of a template literal. *)
Definition LF : string := String "010"%char EmptyString.

(** Completions: a computation returns normally or throws. *)
Inductive Completion (A : Type) : Type :=
| Normal (a : A)
| Throw (message : string).
Arguments Normal {A} a.
Arguments Throw {A} message.

Definition bind {A B} (c : Completion A) (k : A → Completion B)
  : Completion B :=
  match c with
  | Normal a => k a
  | Throw e => Throw e
  end.

(** [try { body } catch (error) { handler }]. *)
Definition try_catch {A} (body : Completion A)
    (handler : string → Completion A) : Completion A :=
  match body with
  | Normal a => Normal a
  | Throw e => handler e
  end.

(** Values of [JSON.parse]: of any shape, whatever schema was asked for.
    An object has each key once. *)
#[local] Unset Elimination Schemes.
Inductive Json :=
| JNull
| JBool (b : bool)
| JNumber (q : Q)
| JString (s : string)
| JArray (items : list Json)
| JObject (members : list (string * Json)).
#[local] Set Elimination Schemes.

Fixpoint assoc {A} (name : string) (members : list (string * A)) : option A :=
  match members with
  | [] => None
  | (key, value) :: rest =>
      if decide (key = name) then Some value else assoc name rest
  end.

(** [value.name] where [value] is an object that has the member. *)
Definition member (name : string) (value : Json) : option Json :=
  match value with
  | JObject members => assoc name members
  | _ => None
  end.

(** ** [Set<string>]

    A JavaScript [Set] iterates in insertion order and holds each value
    once; it is embedded as the list of its elements in that order. *)
Module StringSet.

Abbreviation t := (list string).

(** [s.add(x)]: appended unless already present. *)
Definition add (x : string) (s : t) : t :=
  if decide (x ∈ s) then s else s ++ [x].

(** [s.delete(x)]. *)
Definition delete (x : string) (s : t) : t :=
  filter (λ y, y ≠ x) s.

(** [new Set(iterable)]: the elements are added one by one. *)
Definition of_array (l : list string) : t :=
  foldl (λ s x, add x s) [] l.

(** [Array.from(s)]. *)
Definition to_array (s : t) : list string := s.

(** [l.forEach(x => s.add(x))]. *)
Definition add_each (l : list string) (s : t) : t :=
  foldl (λ s x, add x s) s l.

(** [l.forEach(x => s.delete(x))]. *)
Definition delete_each (l : list string) (s : t) : t :=
  foldl (λ s x, delete x s) s l.

End StringSet.

End Js.

Notation "'await!' x ':=' c 'in' k" := (Js.bind c (λ x, k))
  (at level 10, x name, c at level 100, k at level 200, only parsing).

(** A call that may throw, outside any [try]: the exception leaves the
    function. *)
Notation "'const!' x ':=' c 'in' k" := (Js.bind c (λ x, k))
  (at level 10, x name, c at level 100, k at level 200, only parsing).

(** ** Data model ([types.ts]) *)

Record GameState := mkGameState {
  inventory : list string;
  currentQuest : string;
  health : Z;
  location : string;
}.

Record StorySegment := mkStorySegment {
  id : string;
  text : string;
  imagePrompt : option string;
  imageUrl : option string;
  choices : list string;
  isUser : option bool;
  timestamp : Z;
}.

Inductive ImageSize := Size1K | Size2K | Size4K.

(** The object a narrative call yields: the fields of [storySchema]. *)
Record StoryResult := mkStoryResult {
  narrative : string;
  inventory_add : list string;
  inventory_remove : list string;
  new_quest : option string;
  image_prompt : string;
  suggested_choices : list string;
}.

(** ** Game state store

    The updater passed to [setGameState] in [handleAction]. *)
Definition mergeInventory (result : StoryResult) (prev : list string)
  : list string :=
  let newInv := Js.StringSet.of_array prev in
  let newInv := Js.StringSet.add_each (inventory_add result) newInv in
  let newInv := Js.StringSet.delete_each (inventory_remove result) newInv in
  Js.StringSet.to_array newInv.

Definition updateGameState (result : StoryResult) (prev : GameState)
  : GameState :=
  {| inventory := mergeInventory result (inventory prev);
     currentQuest := Js.or_else (new_quest result) (currentQuest prev);
     health := health prev;
     location := location prev |}.

(** ** Backend client ([services/gemini.ts])

    The generative-content library and the host page are outside the
    repository. What the code uses of them is gathered in [Host]: one value
    of it is the environment as one call finds it. *)

Module GenAI.

(** [Schema] objects, as far as [storySchema] uses them. *)
#[local] Unset Elimination Schemes.
Inductive Schema :=
| TypeString (description : option string) (nullable : bool)
| TypeArray (items : Schema) (description : option string)
| TypeObject (properties : list (string * Schema)) (required : list string).
#[local] Set Elimination Schemes.

Record ImageConfig := mkImageConfig {
  imageSize : ImageSize;
  aspectRatio : string;
}.

Record Config := mkConfig {
  systemInstruction : option string;
  responseMimeType : option string;
  responseSchema : option Schema;
  temperature : option Q;
  imageConfig : option ImageConfig;
}.

(** [contents]: a plain string, or an object with text parts. *)
Inductive Contents :=
| ContentsString (s : string)
| ContentsParts (texts : list string).

Record GenerateContentParameters := mkParameters {
  model : string;
  contents : Contents;
  config : Config;
}.

Record InlineData := mkInlineData {
  mimeType : string;
  data : string;
}.

Record Part := mkPart {
  partText : option string;
  inlineData : option InlineData;
}.

Record Content := mkContent { parts : option (list Part) }.

Record Candidate := mkCandidate { content : option Content }.

Record GenerateContentResponse := mkResponse {
  text : option string;
  candidates : option (list Candidate);
}.

(** [ai.chats]: [create] builds a chat and may throw; awaiting
    [chat.sendMessage({ message })] yields a response, or throws when the
    promise rejects. *)
Module Chats.

Record TextPart := mkTextPart { text : string }.

Record Turn := mkTurn {
  role : string;
  parts : list TextPart;
}.

Record CreateParameters := mkCreateParameters {
  model : string;
  systemInstruction : string;
  history : list Turn;
}.

Record Chat := mkChat {
  sendMessage : string → Js.Completion GenerateContentResponse;
}.

Record Api := mkApi {
  create : CreateParameters → Js.Completion Chat;
}.

End Chats.

(** A client handle: awaiting [ai.models.generateContent(request)] yields
    a response, or throws when the promise rejects; [ai.chats] is the chat
    interface. *)
Record GoogleGenAI := mkClient {
  generateContent :
    GenerateContentParameters → Js.Completion GenerateContentResponse;
  chats : Chats.Api;
}.

End GenAI.

(** [window.aistudio], the credential-selection hook of the host page. *)
Record AIStudio := mkAIStudio {
  (** [None] when the hook has no [hasSelectedApiKey] member; otherwise what
      awaiting a call of it yields. *)
  hasSelectedApiKey : option (Js.Completion bool);
  (** What awaiting [openSelectKey()] yields. *)
  openSelectKey : Js.Completion ();
}.

Record Host := mkHost {
  (** [process.env.API_KEY] *)
  API_KEY : option string;
  (** [new GoogleGenAI({ apiKey })]: the constructor returns a handle or
      throws. *)
  newGoogleGenAI : option string → Js.Completion GenAI.GoogleGenAI;
  (** [JSON.parse]: the value a text denotes, of whatever shape; a text
      that is not JSON throws. *)
  JSON_parse : string → Js.Completion Js.Json;
  (** [JSON.stringify] on an array of strings. *)
  JSON_stringify : list string → string;
  (** [window.aistudio] *)
  aistudio : option AIStudio;
}.

(** [getClient]: a new handle per call; it throws when the constructor
    does. *)
Definition getClient (host : Host) : Js.Completion GenAI.GoogleGenAI :=
  newGoogleGenAI host (API_KEY host).

Definition STORY_MODEL : string := "gemini-2.5-flash-lite".

Definition storySchema : GenAI.Schema :=
  GenAI.TypeObject
    [ ("narrative", GenAI.TypeString
         (Some "The next paragraph of the story, reacting to the user's action. Vivid and immersive.")
         false);
      ("inventory_add", GenAI.TypeArray (GenAI.TypeString None false)
         (Some "List of item names to ADD to inventory."));
      ("inventory_remove", GenAI.TypeArray (GenAI.TypeString None false)
         (Some "List of item names to REMOVE from inventory."));
      ("new_quest", GenAI.TypeString
         (Some "Update the quest description if it changes, or null if it remains the same.")
         true);
      ("image_prompt", GenAI.TypeString
         (Some "A detailed visual description of the current scene for image generation. Focus on environment and characters.")
         false);
      ("suggested_choices", GenAI.TypeArray (GenAI.TypeString None false)
         (Some "3-4 concise options for the user's next action.")) ]
    ["narrative"; "inventory_add"; "inventory_remove"; "image_prompt";
     "suggested_choices"].

(** The template literals of [generateStorySegment]. *)
Definition systemPrompt (host : Host) (currentInventory : list string)
    (currentQuest : string) : string :=
  Js.LF +:+
  "    You are an infinite RPG adventure engine. " +:+ Js.LF +:+
  "    Current Inventory: " +:+ JSON_stringify host currentInventory +:+ Js.LF +:+
  "    Current Quest: " +:+ currentQuest +:+ Js.LF +:+
  "    " +:+ Js.LF +:+
  "    Your goal is to advance the story based on the User Action. " +:+ Js.LF +:+
  "    Be creative. This is not a pre-written path." +:+ Js.LF +:+
  "    Maintain a consistent tone (High Fantasy or Sci-Fi depending on context)." +:+ Js.LF +:+
  "    " +:+ Js.LF +:+
  "    Return the response in strictly valid JSON matching the schema." +:+ Js.LF +:+
  "  ".

Definition storyContext (history : list string) : string :=
  Js.join Js.LF (Js.slice_last 6 history).

Definition storyPrompt (history : list string) (userAction : string)
  : string :=
  Js.LF +:+
  "    Previous Story Context:" +:+ Js.LF +:+
  "    " +:+ storyContext history +:+ Js.LF +:+
  "    " +:+ Js.LF +:+
  "    User Action: " +:+ userAction +:+ Js.LF +:+
  "    " +:+ Js.LF +:+
  "    Generate the next segment." +:+ Js.LF +:+
  "  ".

Definition storyRequest (host : Host) (history : list string)
    (userAction : string) (currentInventory : list string)
    (currentQuest : string) : GenAI.GenerateContentParameters :=
  {| GenAI.model := STORY_MODEL;
     GenAI.contents := GenAI.ContentsString (storyPrompt history userAction);
     GenAI.config :=
       {| GenAI.systemInstruction :=
            Some (systemPrompt host currentInventory currentQuest);
          GenAI.responseMimeType := Some "application/json";
          GenAI.responseSchema := Some storySchema;
          GenAI.temperature := Some (8 # 10)%Q;
          GenAI.imageConfig := None |} |}.

(** The object returned by the [catch] block of [generateStorySegment]. *)
Definition storyFallbackValue : Js.Json :=
  Js.JObject
    [ ("narrative", Js.JString "The mists of uncertainty cloud your vision... (AI Generation Error, please try again).");
      ("inventory_add", Js.JArray []);
      ("inventory_remove", Js.JArray []);
      ("new_quest", Js.JNull);
      ("image_prompt", Js.JString "A foggy void of uncertainty.");
      ("suggested_choices", Js.JArray [Js.JString "Try again"]) ].

(** The same object, as the record of its fields. *)
Definition storyFallback : StoryResult :=
  {| narrative := "The mists of uncertainty cloud your vision... (AI Generation Error, please try again).";
     inventory_add := [];
     inventory_remove := [];
     new_quest := None;
     image_prompt := "A foggy void of uncertainty.";
     suggested_choices := ["Try again"] |}.

(** The body of the [try] block of [generateStorySegment]. *)
Definition storyAttempt (host : Host) (ai : GenAI.GoogleGenAI)
    (request : GenAI.GenerateContentParameters)
  : Js.Completion Js.Json :=
  await! response := GenAI.generateContent ai request in
  let text := GenAI.text response in
  if negb (Js.truthy_opt text)
  then Js.Throw "No text response from AI"
  else JSON_parse host (default "" text).

Definition generateStorySegment (host : Host) (history : list string)
    (userAction : string) (currentInventory : list string)
    (currentQuest : string) : Js.Completion Js.Json :=
  const! ai := getClient host in
  Js.try_catch
    (storyAttempt host ai
       (storyRequest host history userAction currentInventory currentQuest))
    (λ error, Js.Normal storyFallbackValue).

Definition IMAGE_MODEL : string := "gemini-3-pro-image-preview".

Definition enhancedPrompt (prompt : string) : string :=
  Js.LF +:+
  "    Art Style: Digital fantasy painting, highly detailed, cinematic lighting, consistent character design, semi-realistic." +:+ Js.LF +:+
  "    Scene: " +:+ prompt +:+ Js.LF +:+
  "  ".

Definition imageRequest (prompt : string) (size : ImageSize)
  : GenAI.GenerateContentParameters :=
  {| GenAI.model := IMAGE_MODEL;
     GenAI.contents := GenAI.ContentsParts [enhancedPrompt prompt];
     GenAI.config :=
       {| GenAI.systemInstruction := None;
          GenAI.responseMimeType := None;
          GenAI.responseSchema := None;
          GenAI.temperature := None;
          GenAI.imageConfig :=
            Some {| GenAI.imageSize := size;
                    GenAI.aspectRatio := "16:9" |} |} |}.

(** [response.candidates?.[0]?.content?.parts || []] *)
Definition responseParts (response : GenAI.GenerateContentResponse)
  : list GenAI.Part :=
  default []
    (cs ← GenAI.candidates response;
     c ← head cs;
     ct ← GenAI.content c;
     GenAI.parts ct).

Definition dataUri (d : GenAI.InlineData) : string :=
  "data:" +:+ GenAI.mimeType d +:+ ";base64," +:+ GenAI.data d.

(** The [for] loop of [generateSceneImage]: it returns at the first part
    that has [inlineData], and falls through to [return null]. *)
Fixpoint firstInlineImage (ps : list GenAI.Part) : option string :=
  match ps with
  | [] => None
  | part :: rest =>
      match GenAI.inlineData part with
      | Some d => Some (dataUri d)
      | None => firstInlineImage rest
      end
  end.

Definition generateSceneImage (host : Host) (prompt : string)
    (size : ImageSize) : Js.Completion (option string) :=
  const! ai := getClient host in
  Js.try_catch
    (await! response := GenAI.generateContent ai (imageRequest prompt size) in
     Js.Normal (firstInlineImage (responseParts response)))
    (λ error, Js.Normal None).

(** [checkAndRequestApiKey]; the promise of an awaited hook call that
    rejects makes the function throw. *)
Definition checkAndRequestApiKey (host : Host) : Js.Completion bool :=
  match aistudio host with
  | Some hook =>
      match hasSelectedApiKey hook with
      | Some call =>
          await! hasKey := call in
          if negb hasKey
          then (await! _opened := openSelectKey hook in Js.Normal true)
          else Js.Normal true
      | None => Js.Normal true
      end
  | None => Js.Normal true
  end.

(** ** Turn controller ([App.tsx]) *)

(** The state hooks of the [App] component. *)
Record AppState := mkAppState {
  hasApiKey : bool;
  loading : bool;
  initializing : bool;
  gameState : GameState;
  storyLog : list StorySegment;
  currentChoices : list string;
  customInput : string;
  sidebarOpen : bool;
  imageResolution : ImageSize;
}.

(** The arguments of the [useState] calls. *)
Definition initialAppState : AppState :=
  {| hasApiKey := false;
     loading := false;
     initializing := false;
     gameState :=
       {| inventory := [];
          currentQuest := "Awaken and find your purpose.";
          health := 100;
          location := "Unknown" |};
     storyLog := [];
     currentChoices := ["Look around"];
     customInput := "";
     sidebarOpen := false;
     imageResolution := Size1K |}.

(** An outstanding call: an [await] that has not resumed yet, with the
    values its continuation holds in its closure. [imageResolution] is read
    by [generateImageForSegment] from the render that created the handler,
    so the calls that may start an image call carry it. *)
Inductive Call :=
| KeyCheck (size : ImageSize)
| StoryCall (history : list string) (action : string)
    (inventory : list string) (quest : string) (size : ImageSize)
| ImageCall (segmentId : string) (prompt : string) (size : ImageSize).

(** State setters. *)
Definition setHasApiKey (b : bool) (st : AppState) : AppState :=
  mkAppState b (loading st) (initializing st) (gameState st) (storyLog st)
    (currentChoices st) (customInput st) (sidebarOpen st) (imageResolution st).

Definition setLoading (b : bool) (st : AppState) : AppState :=
  mkAppState (hasApiKey st) b (initializing st) (gameState st) (storyLog st)
    (currentChoices st) (customInput st) (sidebarOpen st) (imageResolution st).

Definition setInitializing (b : bool) (st : AppState) : AppState :=
  mkAppState (hasApiKey st) (loading st) b (gameState st) (storyLog st)
    (currentChoices st) (customInput st) (sidebarOpen st) (imageResolution st).

Definition setGameState (f : GameState → GameState) (st : AppState)
  : AppState :=
  mkAppState (hasApiKey st) (loading st) (initializing st) (f (gameState st))
    (storyLog st) (currentChoices st) (customInput st) (sidebarOpen st)
    (imageResolution st).

Definition setStoryLog (f : list StorySegment → list StorySegment)
    (st : AppState) : AppState :=
  mkAppState (hasApiKey st) (loading st) (initializing st) (gameState st)
    (f (storyLog st)) (currentChoices st) (customInput st) (sidebarOpen st)
    (imageResolution st).

Definition setCurrentChoices (cs : list string) (st : AppState) : AppState :=
  mkAppState (hasApiKey st) (loading st) (initializing st) (gameState st)
    (storyLog st) cs (customInput st) (sidebarOpen st) (imageResolution st).

Definition setCustomInput (s : string) (st : AppState) : AppState :=
  mkAppState (hasApiKey st) (loading st) (initializing st) (gameState st)
    (storyLog st) (currentChoices st) s (sidebarOpen st) (imageResolution st).

Definition setSidebarOpen (b : bool) (st : AppState) : AppState :=
  mkAppState (hasApiKey st) (loading st) (initializing st) (gameState st)
    (storyLog st) (currentChoices st) (customInput st) b (imageResolution st).

Definition setImageResolution (size : ImageSize) (st : AppState) : AppState :=
  mkAppState (hasApiKey st) (loading st) (initializing st) (gameState st)
    (storyLog st) (currentChoices st) (customInput st) (sidebarOpen st) size.

(** [generateImageForSegment] up to [await generateSceneImage(...)]: the
    image call is started with the resolution of the closure. *)
Definition generateImageForSegment (segmentId prompt : string)
    (imageResolution : ImageSize) : Call :=
  ImageCall segmentId prompt imageResolution.

(** *** Initialization effect *)

Definition initialSegment (now : Z) : StorySegment :=
  {| id := "init";
     text := "You awaken in a dimly lit chamber. The air is cold and smells of ancient stone. Dust motes dance in a stray beam of light cutting through the darkness. You have no memory of how you arrived here.";
     imagePrompt := None;
     imageUrl := None;
     choices := ["Search the room"; "Call out for help"; "Examine yourself"];
     isUser := None;
     timestamp := now |}.

(** [init] up to [await checkAndRequestApiKey()]. *)
Definition init (st : AppState) : AppState * list Call :=
  (setInitializing true st, [KeyCheck (imageResolution st)]).

(** [init] from the [await] on. A check that throws rejects [init]: nothing
    after the [await] runs. *)
Definition init_resume (check : Js.Completion bool) (now : Z)
    (size : ImageSize) (st : AppState) : AppState * list Call :=
  match check with
  | Js.Throw _ => (st, [])
  | Js.Normal keySelected =>
      let st := setHasApiKey keySelected st in
      if keySelected then
        let seg := initialSegment now in
        let st := setStoryLog (λ _, [seg]) st in
        let st := setCurrentChoices (choices seg) st in
        (setInitializing false st,
         [generateImageForSegment (id seg)
            "A dimly lit ancient stone chamber, cold atmosphere, dust motes in light beam."
            size])
      else (setInitializing false st, [])
  end.

(** The early return of the render function: the reload prompt replaces
    the game. *)
Definition showsReloadPrompt (st : AppState) : bool :=
  negb (hasApiKey st) && negb (initializing st).

(** *** A turn *)

Definition userSegment (tid tts : Z) (action : string) : StorySegment :=
  {| id := pretty tid +:+ "-user";
     text := action;
     imagePrompt := None;
     imageUrl := None;
     choices := [];
     isUser := Some true;
     timestamp := tts |}.

Definition isNarrative (s : StorySegment) : bool :=
  negb (Js.truthy_flag (isUser s)).

Definition historyText (log : list StorySegment) : list string :=
  text <$> Js.slice_last 5 (filter (λ s, isNarrative s = true) log).

(** [handleAction] up to [await generateStorySegment(...)]. [tid] and [tts]
    are the two reads of [Date.now()]. *)
Definition handleAction (tid tts : Z) (action : string) (st : AppState)
  : AppState * list Call :=
  if loading st then (st, [])
  else
    let st' := setLoading true st in
    let st' := setStoryLog (λ prev, prev ++ [userSegment tid tts action]) st' in
    (st', [StoryCall (historyText (storyLog st)) action
             (inventory (gameState st)) (currentQuest (gameState st))
             (imageResolution st)]).

Definition newSegment (tid tts : Z) (result : StoryResult) : StorySegment :=
  {| id := pretty tid;
     text := narrative result;
     imagePrompt := Some (image_prompt result);
     imageUrl := None;
     choices := suggested_choices result;
     isUser := None;
     timestamp := tts |}.

(** *** The result of the narrative call, as [handleAction] reads it

    [result] is whatever [generateStorySegment] returned. The handler
    iterates [result.inventory_add] and [result.inventory_remove], uses
    [result.new_quest] if it is truthy, and stores [result.narrative],
    [result.suggested_choices] and [result.image_prompt] in state that is
    typed as strings and arrays of strings. [asStoryResult] reads a value
    that has these members at these types; [new_quest] may be absent or
    null. *)
Definition asString (value : Js.Json) : option string :=
  match value with
  | Js.JString s => Some s
  | _ => None
  end.

Definition asStringArray (value : Js.Json) : option (list string) :=
  match value with
  | Js.JArray items => mapM asString items
  | _ => None
  end.

Definition asNullableString (value : option Js.Json) : option (option string) :=
  match value with
  | None | Some Js.JNull => Some None
  | Some (Js.JString s) => Some (Some s)
  | Some _ => None
  end.

Definition asStoryResult (value : Js.Json) : option StoryResult :=
  narrative ← Js.member "narrative" value ≫= asString;
  inventory_add ← Js.member "inventory_add" value ≫= asStringArray;
  inventory_remove ← Js.member "inventory_remove" value ≫= asStringArray;
  new_quest ← asNullableString (Js.member "new_quest" value);
  image_prompt ← Js.member "image_prompt" value ≫= asString;
  suggested_choices ← Js.member "suggested_choices" value ≫= asStringArray;
  Some (mkStoryResult narrative inventory_add inventory_remove new_quest
          image_prompt suggested_choices).

(** What the [await] of [handleAction] hands to its continuation. A
    rejected call throws at the [await]. A value that lacks the members
    above, or has them at other types, makes the continuation or the
    updater it queues fail with a [TypeError], or puts [undefined] where
    the state is typed as a string or an array; no state of the typed
    component follows from it, and the continuation is taken to throw. *)
Definition readStoryResult (call : Js.Completion Js.Json)
  : Js.Completion StoryResult :=
  match call with
  | Js.Throw e => Js.Throw e
  | Js.Normal value =>
      match asStoryResult value with
      | Some result => Js.Normal result
      | None => Js.Throw "TypeError"
      end
  end.

Arguments readStoryResult : simpl never.

(** [handleAction] from the [await] on, on what [readStoryResult] gives. A
    call that throws rejects [handleAction]: nothing after the [await]
    runs, and [loading] stays set. *)
Definition handleAction_resume (call : Js.Completion StoryResult)
    (tid tts : Z) (size : ImageSize) (st : AppState)
  : AppState * list Call :=
  match call with
  | Js.Throw _ => (st, [])
  | Js.Normal result =>
      let st := setGameState (updateGameState result) st in
      let seg := newSegment tid tts result in
      let st := setStoryLog (λ prev, prev ++ [seg]) st in
      let st := setCurrentChoices (suggested_choices result) st in
      let st := setLoading false st in
      let st := setCustomInput "" st in
      (st,
       if Js.truthy (image_prompt result)
       then [generateImageForSegment (id seg) (image_prompt result) size]
       else [])
  end.

(** *** Scene images *)

(** [{ ...seg, imageUrl }] *)
Definition withImageUrl (url : string) (seg : StorySegment) : StorySegment :=
  {| id := id seg;
     text := text seg;
     imagePrompt := imagePrompt seg;
     imageUrl := Some url;
     choices := choices seg;
     isUser := isUser seg;
     timestamp := timestamp seg |}.

(** The updater passed to [setStoryLog] in [generateImageForSegment]. *)
Definition patchImageUrl (segmentId url : string) (prev : list StorySegment)
  : list StorySegment :=
  (λ seg, if decide (id seg = segmentId) then withImageUrl url seg else seg)
    <$> prev.

(** [generateImageForSegment] from [await generateSceneImage(...)] on. *)
Definition generateImageForSegment_resume (segmentId : string)
    (call : Js.Completion (option string)) (st : AppState) : AppState :=
  match call with
  | Js.Throw _ => st
  | Js.Normal imageUrl =>
      if Js.truthy_opt imageUrl
      then setStoryLog (patchImageUrl segmentId (default "" imageUrl)) st
      else st
  end.

(** *** The controller as a transition system

    A world is the component state together with the outstanding calls. An
    event is a player action or the completion of an outstanding call; a
    completion names the call by its position and carries the environment
    the call met and the clock reads of its continuation. A handler reads
    the state of the latest render, which is the state the earlier events
    have produced. *)

Record World := mkWorld {
  app : AppState;
  calls : list Call;
}.

Inductive Event :=
| Submit (tid tts : Z) (action : string)
| KeyCheckResolves (i : nat) (host : Host) (now : Z)
| StoryResolves (i : nat) (host : Host) (tid tts : Z)
| ImageResolves (i : nat) (host : Host)
| TypeInput (s : string)
| ToggleSidebar
| SelectResolution (size : ImageSize).

(** The [i]-th call has completed; its continuation has run. *)
Definition finish (w : World) (i : nat) (r : AppState * list Call) : World :=
  {| app := r.1; calls := delete i (calls w) ++ r.2 |}.

Definition step (e : Event) (w : World) : World :=
  match e with
  | Submit tid tts action =>
      let r := handleAction tid tts action (app w) in
      {| app := r.1; calls := calls w ++ r.2 |}
  | KeyCheckResolves i host now =>
      match calls w !! i with
      | Some (KeyCheck size) =>
          finish w i (init_resume (checkAndRequestApiKey host) now size (app w))
      | _ => w
      end
  | StoryResolves i host tid tts =>
      match calls w !! i with
      | Some (StoryCall history action inv quest size) =>
          finish w i
            (handleAction_resume
               (readStoryResult
                  (generateStorySegment host history action inv quest))
               tid tts size (app w))
      | _ => w
      end
  | ImageResolves i host =>
      match calls w !! i with
      | Some (ImageCall segmentId prompt size) =>
          finish w i
            (generateImageForSegment_resume segmentId
               (generateSceneImage host prompt size) (app w), [])
      | _ => w
      end
  | TypeInput s =>
      {| app := setCustomInput s (app w); calls := calls w |}
  | ToggleSidebar =>
      {| app := setSidebarOpen (negb (sidebarOpen (app w))) (app w);
         calls := calls w |}
  | SelectResolution size =>
      {| app := setImageResolution size (app w); calls := calls w |}
  end.

(** The component after its first render, the mount effect started. *)
Definition mounted : World :=
  let r := init initialAppState in
  {| app := r.1; calls := r.2 |}.

Definition run (events : list Event) : World :=
  foldl (λ w e, step e w) mounted events.

(** ** Chat assistant ([sendChatMessage] of [services/gemini.ts]) *)

Definition CHAT_MODEL : string := "gemini-3-pro-preview".

(** The template literal [systemInstruction]. [gameState] is declared
    [any]; the argument is the game state that [App] hands to the chat
    widget, so [gameState.inventory] is an array of strings. *)
Definition chatInstruction (gameState : GameState) : string :=
  Js.LF +:+
  "    You are a helpful AI guide for the player of this adventure game." +:+ Js.LF +:+
  "    Current Game State:" +:+ Js.LF +:+
  "    - Inventory: " +:+ Js.join ", " (inventory gameState) +:+ Js.LF +:+
  "    - Quest: " +:+ currentQuest gameState +:+ Js.LF +:+
  "    " +:+ Js.LF +:+
  "    Answer the player's questions about the world, lore, or game mechanics. " +:+ Js.LF +:+
  "    Keep answers concise and immersive." +:+ Js.LF +:+
  "  ".

Definition chatError : string :=
  "I cannot hear you clearly through the void... (Error)".

Definition chatParameters (history : list GenAI.Chats.Turn)
    (systemInstruction : string) : GenAI.Chats.CreateParameters :=
  {| GenAI.Chats.model := CHAT_MODEL;
     GenAI.Chats.systemInstruction := systemInstruction;
     GenAI.Chats.history :=
       (λ h, {| GenAI.Chats.role := GenAI.Chats.role h;
                GenAI.Chats.parts := GenAI.Chats.parts h |})
         <$> history |}.

(** The body of the [try] block of [sendChatMessage]. The reply is
    [result.text], absent when the response has no text. *)
Definition chatAttempt (ai : GenAI.GoogleGenAI)
    (history : list GenAI.Chats.Turn) (message : string)
    (systemInstruction : string) : Js.Completion (option string) :=
  await! chat := GenAI.Chats.create (GenAI.chats ai)
                   (chatParameters history systemInstruction) in
  await! result := GenAI.Chats.sendMessage chat message in
  Js.Normal (GenAI.text result).

(** The handle is obtained and the instruction built before the [try]. *)
Definition sendChatMessage (host : Host) (history : list GenAI.Chats.Turn)
    (message : string) (gameState : GameState)
  : Js.Completion (option string) :=
  const! ai := getClient host in
  let systemInstruction := chatInstruction gameState in
  Js.try_catch
    (chatAttempt ai history message systemInstruction)
    (λ error, Js.Normal (Some chatError)).

(** ** What is rendered ([App.tsx], the [Sidebar] component) *)

(** The two [return]s of [App]. *)
Inductive Screen := ReloadScreen | GameScreen.

Definition screen (st : AppState) : Screen :=
  if showsReloadPrompt st then ReloadScreen else GameScreen.

(** The image slot of a narrative block:
    [segment.imageUrl ? <img/> : segment.imagePrompt && <placeholder/>]. *)
Inductive ImageView :=
| Picture (src : string)
| Visualizing
| NoImage.

Definition imageView (segment : StorySegment) : ImageView :=
  if Js.truthy_opt (imageUrl segment) then Picture (default "" (imageUrl segment))
  else if Js.truthy_opt (imagePrompt segment) then Visualizing
  else NoImage.

Inductive SegmentView :=
| UserBubble (content : string)
| NarrativeBlock (image : ImageView) (content : string).

Definition segmentView (segment : StorySegment) : SegmentView :=
  if Js.truthy_flag (isUser segment) then UserBubble (text segment)
  else NarrativeBlock (imageView segment) (text segment).

(** [disabled] of the choice buttons and of the text input. *)
Definition choiceDisabled (st : AppState) : bool := loading st.

(** [disabled] of the send button: [loading || !customInput]. *)
Definition sendDisabled (st : AppState) : bool :=
  loading st || negb (Js.truthy (customInput st)).

(** [onClick] of a choice button. *)
Definition onChoiceClick (tid tts : Z) (choice : string) (st : AppState)
  : AppState * list Call :=
  handleAction tid tts choice st.

(** [onKeyDown] with the Enter key, and [onClick] of the send button:
    [customInput && handleAction(customInput)]. *)
Definition onSend (tid tts : Z) (st : AppState) : AppState * list Call :=
  if Js.truthy (customInput st)
  then handleAction tid tts (customInput st) st
  else (st, []).

(** The quest paragraph of the sidebar:
    [gameState.currentQuest || "Explore the world..."]. *)
Definition questShown (gameState : GameState) : string :=
  Js.or_else (Some (currentQuest gameState)) "Explore the world...".

(** The inventory section of the sidebar. *)
Inductive InventoryView :=
| EmptyNote
| ItemList (items : list string).

Definition inventoryShown (gameState : GameState) : InventoryView :=
  if decide (length (inventory gameState) = 0%nat) then EmptyNote
  else ItemList (inventory gameState).

(** The health line of the sidebar is a literal. *)
Definition healthShown : string := "100/100".

(** ** Vocabulary of the properties, and sample data *)

(** The second scenario of the specification: a turn adds the torch, the
    next one both adds and removes it. *)
Definition torchDelta : StoryResult :=
  {| narrative := "The torch gutters and dies.";
     inventory_add := ["torch"];
     inventory_remove := ["torch"];
     new_quest := None;
     image_prompt := "A dark corridor.";
     suggested_choices := ["Go on"; "Turn back"] |}.

Definition torchState : GameState :=
  {| inventory := ["rusty key"; "torch"];
     currentQuest := "Awaken and find your purpose.";
     health := 100;
     location := "Unknown" |}.

(** A delta whose quest is the empty string: not null, and still ignored. *)
Definition emptyQuestDelta : StoryResult :=
  {| narrative := "Nothing stirs.";
     inventory_add := [];
     inventory_remove := [];
     new_quest := Some "";
     image_prompt := "A silent chamber.";
     suggested_choices := ["Wait"] |}.

Definition questDelta : StoryResult :=
  {| narrative := "A voice names your task.";
     inventory_add := [];
     inventory_remove := [];
     new_quest := Some "Find the lost crown.";
     image_prompt := "A ghostly figure.";
     suggested_choices := ["Accept"; "Refuse"] |}.

(** The ways the [try] block of [generateStorySegment] throws: the request
    is rejected, the response has no text or an empty one, or the text does
    not parse. *)
Definition storyAttemptFails (host : Host) (ai : GenAI.GoogleGenAI)
    (request : GenAI.GenerateContentParameters) : Prop :=
  match GenAI.generateContent ai request with
  | Js.Throw _ => True
  | Js.Normal response =>
      match GenAI.text response with
      | None => True
      | Some t => t = "" ∨ ∃ e, JSON_parse host t = Js.Throw e
      end
  end.

(** The object with the members of a [StoryResult], as [JSON.parse]
    returns it for a response that follows the schema. *)
Definition storyResultValue (result : StoryResult) : Js.Json :=
  Js.JObject
    [ ("narrative", Js.JString (narrative result));
      ("inventory_add", Js.JArray (Js.JString <$> inventory_add result));
      ("inventory_remove", Js.JArray (Js.JString <$> inventory_remove result));
      ("new_quest", from_option Js.JString Js.JNull (new_quest result));
      ("image_prompt", Js.JString (image_prompt result));
      ("suggested_choices",
       Js.JArray (Js.JString <$> suggested_choices result)) ].

(** Sample environments. In a browser the constructor of the library
    throws when it is given no key. *)
Definition browserConstructor (client : GenAI.GoogleGenAI)
    (apiKey : option string) : Js.Completion GenAI.GoogleGenAI :=
  match apiKey with
  | Some _ => Js.Normal client
  | None => Js.Throw "An API Key must be set when running in a browser"
  end.

Definition environment (apiKey : option string)
    (generateContent :
       GenAI.GenerateContentParameters
       → Js.Completion GenAI.GenerateContentResponse)
    (chats : GenAI.Chats.Api) (parse : string → Js.Completion Js.Json)
    (hook : option AIStudio) : Host :=
  {| API_KEY := apiKey;
     newGoogleGenAI :=
       browserConstructor
         {| GenAI.generateContent := generateContent; GenAI.chats := chats |};
     JSON_parse := parse;
     JSON_stringify := λ _, "[]";
     aistudio := hook |}.

(** A chat backend that cannot create a chat, and one that answers. *)
Definition brokenChats : GenAI.Chats.Api :=
  {| GenAI.Chats.create := λ _, Js.Throw "Failed to fetch" |}.

Definition answeringChats : GenAI.Chats.Api :=
  {| GenAI.Chats.create := λ _,
       Js.Normal
         {| GenAI.Chats.sendMessage := λ _,
              Js.Normal {| GenAI.text := Some "The key opens the north door.";
                           GenAI.candidates := None |} |} |}.

(** The first scenario of the specification: the backend answers "Search
    the room" with a rusty key. *)
Definition rustyKeyDelta : StoryResult :=
  {| narrative := "Under a loose flagstone you find a rusty key.";
     inventory_add := ["rusty key"];
     inventory_remove := [];
     new_quest := None;
     image_prompt := "A rusty key under a flagstone.";
     suggested_choices := ["Use key"; "Leave"] |}.

Definition rustyKeyHost : Host :=
  environment (Some "key")
    (λ _, Js.Normal {| GenAI.text := Some "{...}"; GenAI.candidates := None |})
    answeringChats
    (λ _, Js.Normal (storyResultValue rustyKeyDelta))
    None.

(** An environment without network: every request is rejected. *)
Definition offlineHost : Host :=
  environment (Some "key") (λ _, Js.Throw "Failed to fetch") brokenChats
    (λ _, Js.Throw "SyntaxError") None.

Definition noInlineData (part : GenAI.Part) : Prop :=
  GenAI.inlineData part = None.

(** The events that neither complete an image call nor complete the
    credential check: player input and the completion of a narrative call. *)
Definition isTurnEvent (e : Event) : bool :=
  match e with
  | ImageResolves _ _ | KeyCheckResolves _ _ _ => false
  | _ => true
  end.

(** An environment whose image model answers with text only. *)
Definition textOnlyHost : Host :=
  environment (Some "key")
    (λ _,
       Js.Normal
         {| GenAI.text := Some "I cannot draw this.";
            GenAI.candidates :=
              Some [ {| GenAI.content :=
                          Some {| GenAI.parts :=
                                    Some [ {| GenAI.partText := Some "I cannot draw this.";
                                              GenAI.inlineData := None |} ] |} |} ] |})
    brokenChats (λ _, Js.Throw "SyntaxError") None.

(** A log of seven narrative segments with player actions in between. *)
Definition sampleLog : list StorySegment :=
  [ initialSegment 1700000000000;
    userSegment 1700000001000 1700000001000 "Search the room";
    newSegment 1700000002000 1700000002000 questDelta;
    userSegment 1700000003000 1700000003000 "Accept";
    newSegment 1700000004000 1700000004000 torchDelta;
    newSegment 1700000005000 1700000005000 emptyQuestDelta;
    userSegment 1700000006000 1700000006000 "Wait";
    newSegment 1700000007000 1700000007000 storyFallback;
    newSegment 1700000008000 1700000008000 questDelta;
    newSegment 1700000009000 1700000009000 torchDelta ].

Definition sampleState : AppState :=
  setStoryLog (λ _, sampleLog) initialAppState.

(** The hook reports that no key is selected; the selection flow is opened
    and closes. *)
Definition hostWithoutSelectedKey : Host :=
  environment None (λ _, Js.Throw "API key not valid") brokenChats
    (λ _, Js.Throw "SyntaxError")
    (Some {| hasSelectedApiKey := Some (Js.Normal false);
             openSelectKey := Js.Normal () |}).

Definition chars (s : string) : list ascii := String.list_ascii_of_string s.

(** A character of a decimal string. *)
Definition decimalChar (c : ascii) : Prop := c ∈ chars "0123456789-".

(** The reads of [Date.now()] taken for the id of a player-action segment. *)
Definition submitReads (events : list Event) : list Z :=
  omap (λ e, match e with Submit tid _ _ => Some tid | _ => None end) events.

(** The reads of [Date.now()] taken for the id of a narrative segment. *)
Definition storyReads (events : list Event) : list Z :=
  omap (λ e, match e with StoryResolves _ _ tid _ => Some tid | _ => None end)
    events.

Definition logIds (w : World) : list string := id <$> storyLog (app w).

(** Where the ids of a log come from. *)
Definition idsFrom (events : list Event) (ids : list string) : Prop :=
  ∀ s, s ∈ ids →
    s = "init"
    ∨ (∃ t, t ∈ submitReads events ∧ s = pretty t +:+ "-user")
    ∨ (∃ t, t ∈ storyReads events ∧ s = pretty t).

(** Two turns against a backend that fails at once; the clock returns the
    same reading when the two narrative segments are created, as a timer of
    reduced precision does for a second turn that follows at once. *)
Definition repeatedReadRun : list Event :=
  [ KeyCheckResolves 0 offlineHost 1700000000000;
    Submit 1700000001000 1700000001000 "Search the room";
    StoryResolves 1 offlineHost 1700000001005 1700000001005;
    Submit 1700000001005 1700000001005 "Try again";
    StoryResolves 2 offlineHost 1700000001005 1700000001005 ].

Definition twoTurnRun : list Event :=
  [ KeyCheckResolves 0 offlineHost 1700000000000;
    Submit 1700000001000 1700000001000 "Search the room";
    StoryResolves 1 offlineHost 1700000001005 1700000001005;
    Submit 1700000002000 1700000002000 "Try again";
    StoryResolves 2 offlineHost 1700000002005 1700000002005 ].

(** An environment whose narrative model answers with an empty quest. *)
Definition emptyQuestHost : Host :=
  environment (Some "key")
    (λ _, Js.Normal {| GenAI.text := Some "{...}"; GenAI.candidates := None |})
    brokenChats
    (λ _, Js.Normal (storyResultValue emptyQuestDelta))
    None.

(** The segment an outstanding image call will patch. *)
Definition imageCallSegment (c : Call) : option string :=
  match c with
  | ImageCall segmentId _ _ => Some segmentId
  | _ => None
  end.

(** Outstanding narrative calls. *)
Definition isStoryCall (c : Call) : bool :=
  match c with
  | StoryCall _ _ _ _ _ => true
  | _ => false
  end.

Definition storyCallsInFlight (w : World) : nat :=
  length (filter (λ c, isStoryCall c = true) (calls w)).

(** The most recent narrative segment of a log. *)
Definition lastNarrative (log : list StorySegment) : option StorySegment :=
  last (filter (λ s, isNarrative s = true) log).

(** An id that an image call can carry: that of the initial segment or of
    a narrative segment. *)
Definition narrativeId (s : string) : Prop :=
  s = "init" ∨ ∃ t : Z, s = pretty t.

Definition imageCallTarget (c : Call) : Prop :=
  match c with
  | ImageCall segmentId _ _ => narrativeId segmentId
  | _ => True
  end.

(** The choices a log calls for: those of its most recent narrative
    segment, or those of the first render when it has none. *)
Definition offeredChoices (log : list StorySegment) : list string :=
  default ["Look around"] (choices <$> lastNarrative log).

(** The log starts with the initial segment exactly when the check has
    succeeded. *)
Definition opensWithInit (st : AppState) : Prop :=
  match head (storyLog st) with
  | Some seg => id seg = "init" ↔ hasApiKey st = true
  | None => hasApiKey st = false
  end.

(** What holds of a player-action segment: no image, and an id of the
    shape that [handleAction] gives it. *)
Definition userSegmentOk (seg : StorySegment) : Prop :=
  Js.truthy_flag (isUser seg) = true →
  imageUrl seg = None ∧ ∃ t : Z, id seg = pretty t +:+ "-user".

(** Outstanding credential checks. *)
Definition isKeyCheck (c : Call) : bool :=
  match c with
  | KeyCheck _ => true
  | _ => false
  end.

Definition keyChecksInFlight (w : World) : nat :=
  length (filter (λ c, isKeyCheck c = true) (calls w)).

(** The game started against the backend of the first scenario. *)
Definition startedRun : list Event :=
  [ KeyCheckResolves 0 rustyKeyHost 1700000000000 ].

(** An action submitted before the credential check has completed. *)
Definition earlySubmitRun : list Event :=
  [ Submit 1700000000100 1700000000100 "Look around" ].

(** An environment whose image model puts its image in the second
    candidate. *)
Definition laterCandidateHost : Host :=
  environment (Some "key")
    (λ _,
       Js.Normal
         {| GenAI.text := None;
            GenAI.candidates :=
              Some [ {| GenAI.content :=
                          Some {| GenAI.parts :=
                                    Some [ {| GenAI.partText := Some "Here it is.";
                                              GenAI.inlineData := None |} ] |} |};
                     {| GenAI.content :=
                          Some {| GenAI.parts :=
                                    Some [ {| GenAI.partText := None;
                                              GenAI.inlineData :=
                                                Some {| GenAI.mimeType := "image/png";
                                                        GenAI.data := "iVBORw0KGgo=" |} |} ] |} |} ] |})
    brokenChats (λ _, Js.Throw "SyntaxError") None.

(** An environment whose image model answers with a caption and then the
    image, in the first candidate. *)
Definition imageHost : Host :=
  environment (Some "key")
    (λ _,
       Js.Normal
         {| GenAI.text := Some "Here it is.";
            GenAI.candidates :=
              Some [ {| GenAI.content :=
                          Some {| GenAI.parts :=
                                    Some [ {| GenAI.partText := Some "Here it is.";
                                              GenAI.inlineData := None |};
                                           {| GenAI.partText := None;
                                              GenAI.inlineData :=
                                                Some {| GenAI.mimeType := "image/png";
                                                        GenAI.data := "iVBORw0KGgo=" |} |};
                                           {| GenAI.partText := None;
                                              GenAI.inlineData :=
                                                Some {| GenAI.mimeType := "image/jpeg";
                                                        GenAI.data := "/9j/4AAQSkZJRg==" |} |} ] |} |} ] |})
    brokenChats (λ _, Js.Throw "SyntaxError") None.

(** An environment whose narrative model answers with the empty object. *)
Definition emptyObjectHost : Host :=
  environment (Some "key")
    (λ _, Js.Normal {| GenAI.text := Some "{}"; GenAI.candidates := None |})
    brokenChats (λ _, Js.Normal (Js.JObject [])) None.

Definition sampleTranscript : list GenAI.Chats.Turn :=
  [ {| GenAI.Chats.role := "user";
       GenAI.Chats.parts := [ {| GenAI.Chats.text := "Where am I?" |} ] |};
    {| GenAI.Chats.role := "model";
       GenAI.Chats.parts :=
         [ {| GenAI.Chats.text := "In a chamber of ancient stone." |} ] |} ].

Definition sampleHistory : list string :=
  [ "one"; "two"; "three"; "four"; "five"; "six"; "seven"; "eight" ].

(** The first scenario of the specification as a run. *)
Definition rustyKeyRun : list Event :=
  [ KeyCheckResolves 0 rustyKeyHost 1700000000000;
    Submit 1700000001000 1700000001000 "Search the room";
    StoryResolves 1 rustyKeyHost 1700000001500 1700000001500 ].

(** The game started without a key (the hook reported none), then a turn. *)
Definition keylessRun : list Event :=
  [ KeyCheckResolves 0 hostWithoutSelectedKey 1700000000000;
    Submit 1700000001000 1700000001000 "Search the room";
    StoryResolves 1 hostWithoutSelectedKey 1700000001005 1700000001005 ].

(** The game started without a key (the hook reported none). *)
Definition keylessStart : list Event :=
  [ KeyCheckResolves 0 hostWithoutSelectedKey 1700000000000 ].

(** The events that may fall between the submission of an action and the
    completion of its narrative call: player input and the completion of
    image calls, not the completion of the credential check or of a
    narrative call. *)
Definition isInterlude (e : Event) : bool :=
  match e with
  | KeyCheckResolves _ _ _ | StoryResolves _ _ _ _ => false
  | _ => true
  end.

(** A segment without its image. *)
Definition sameButImage (seg : StorySegment) :=
  (id seg, text seg, imagePrompt seg, choices seg, isUser seg, timestamp seg).

(** The narrative call that submitting [action] in the world [w] starts. *)
Definition submittedCall (w : World) (action : string) : Call :=
  StoryCall (historyText (storyLog (app w))) action
    (inventory (gameState (app w))) (currentQuest (gameState (app w)))
    (imageResolution (app w)).

(** The world [v] is in the turn that submitting [action] in [w] started:
    [loading] is set, the game state and the choices are those of [w], the
    log is that of [w] followed by the action (images apart), and the one
    outstanding narrative call is the submitted one. *)
Definition turnInProgress (w : World) (tid tts : Z) (action : string)
    (v : World) : Prop :=
  loading (app v) = true
  ∧ gameState (app v) = gameState (app w)
  ∧ currentChoices (app v) = currentChoices (app w)
  ∧ sameButImage <$> storyLog (app v)
    = sameButImage <$> (storyLog (app w) ++ [userSegment tid tts action])
  ∧ filter (λ c, isStoryCall c = true) (calls v) = [submittedCall w action].

(** * Properties *)

(** ** Inventory merge *)

Section StringSetFacts.
Import Js.StringSet.
Implicit Types (x y : string) (s l : list string).

Lemma elem_of_add x y s : y ∈ add x s ↔ y = x ∨ y ∈ s.
Proof.
  unfold add. case_decide; [|rewrite elem_of_app, list_elem_of_singleton];
    naive_solver.
Qed.

Lemma NoDup_add x s : NoDup s → NoDup (add x s).
Proof.
  intros Hs. unfold add. case_decide; [done|].
  apply NoDup_app. split_and!; [done| |apply NoDup_singleton].
  intros z Hz ->%list_elem_of_singleton. done.
Qed.

Lemma elem_of_delete x y s : y ∈ delete x s ↔ y ∈ s ∧ y ≠ x.
Proof. unfold delete. rewrite list_elem_of_filter. naive_solver. Qed.

Lemma NoDup_delete x s : NoDup s → NoDup (delete x s).
Proof. apply NoDup_filter. Qed.

Lemma elem_of_add_each l : ∀ s y, y ∈ add_each l s ↔ y ∈ l ∨ y ∈ s.
Proof.
  unfold add_each. induction l as [|x l IH]; intros s y; simpl.
  - rewrite elem_of_nil. naive_solver.
  - rewrite IH, elem_of_add, elem_of_cons. naive_solver.
Qed.

Lemma NoDup_add_each l : ∀ s, NoDup s → NoDup (add_each l s).
Proof.
  unfold add_each. induction l as [|x l IH]; intros s Hs; simpl; [done|].
  by apply IH, NoDup_add.
Qed.

Lemma elem_of_delete_each l : ∀ s y, y ∈ delete_each l s ↔ y ∈ s ∧ y ∉ l.
Proof.
  unfold delete_each. induction l as [|x l IH]; intros s y; simpl.
  - rewrite elem_of_nil. naive_solver.
  - rewrite IH, elem_of_delete, not_elem_of_cons. naive_solver.
Qed.

Lemma NoDup_delete_each l : ∀ s, NoDup s → NoDup (delete_each l s).
Proof.
  unfold delete_each. induction l as [|x l IH]; intros s Hs; simpl; [done|].
  by apply IH, NoDup_delete.
Qed.

(** Adding fresh, distinct values appends them in order. *)
Lemma add_each_fresh l : ∀ s, NoDup (s ++ l) → add_each l s = s ++ l.
Proof.
  unfold add_each. induction l as [|x l IH]; intros s Hnd; simpl.
  - by rewrite app_nil_r.
  - assert (x ∉ s) as Hx.
    { apply NoDup_app in Hnd as (_ & Hdisj & _). intros Hin.
      apply (Hdisj x Hin). left. }
    unfold add at 2. rewrite decide_False by done.
    rewrite IH; rewrite <-(assoc_L (++)); done.
Qed.

Lemma of_array_NoDup l : NoDup l → of_array l = l.
Proof. intros Hl. apply (add_each_fresh l []). done. Qed.

Lemma elem_of_of_array l y : y ∈ of_array l ↔ y ∈ l.
Proof.
  change (of_array l) with (add_each l []).
  rewrite elem_of_add_each, elem_of_nil. naive_solver.
Qed.

Lemma NoDup_of_array l : NoDup (of_array l).
Proof. apply (NoDup_add_each l []), NoDup_nil_2. Qed.

End StringSetFacts.

Lemma elem_of_mergeInventory result prev x :
  x ∈ mergeInventory result prev
  ↔ (x ∈ prev ∨ x ∈ inventory_add result) ∧ x ∉ inventory_remove result.
Proof.
  unfold mergeInventory, Js.StringSet.to_array.
  rewrite elem_of_delete_each, elem_of_add_each, elem_of_of_array.
  naive_solver.
Qed.

Lemma NoDup_mergeInventory result prev : NoDup (mergeInventory result prev).
Proof.
  unfold mergeInventory, Js.StringSet.to_array.
  apply NoDup_delete_each, NoDup_add_each, NoDup_of_array.
Qed.

(** A delta that adds and removes nothing returns a duplicate-free
    inventory as it was, order included. *)
Lemma mergeInventory_empty_delta result prev :
  inventory_add result = [] → inventory_remove result = [] →
  NoDup prev → mergeInventory result prev = prev.
Proof.
  intros Ha Hr Hnd. unfold mergeInventory. rewrite Ha, Hr. simpl.
  by apply of_array_NoDup.
Qed.

(** C1. For every current inventory and every delta, the merged inventory
    holds exactly the items of (current ∪ add) \ remove: an item is in the
    result iff it is in the current inventory or in the add list, and is not
    in the remove list. So an item named in both lists of the delta is
    absent, and the result has no duplicates. *)
Theorem inventory_merge_is_union_minus_remove
    (prev : GameState) (result : StoryResult) :
  let inv' := inventory (updateGameState result prev) in
  list_to_set inv' =@{gset string}
    (list_to_set (inventory prev) ∪ list_to_set (inventory_add result))
      ∖ list_to_set (inventory_remove result)
  ∧ (∀ x, x ∈ inv'
       ↔ (x ∈ inventory prev ∨ x ∈ inventory_add result)
         ∧ x ∉ inventory_remove result)
  ∧ (∀ x, x ∈ inventory_add result → x ∈ inventory_remove result → x ∉ inv')
  ∧ NoDup inv'.
Proof.
  simpl. split_and!.
  - apply set_eq. intros x.
    rewrite elem_of_difference, elem_of_union, !elem_of_list_to_set.
    apply elem_of_mergeInventory.
  - intros x. apply elem_of_mergeInventory.
  - intros x _ Hrem Hin. apply elem_of_mergeInventory in Hin. naive_solver.
  - apply NoDup_mergeInventory.
Qed.

Lemma inventory_merge_witness :
  ("torch" ∉ inventory (updateGameState torchDelta torchState))
  ∧ NoDup (inventory (updateGameState torchDelta torchState)).
Proof.
  destruct (inventory_merge_is_union_minus_remove torchState torchDelta)
    as (_ & _ & Habsent & Hnodup).
  split; [|exact Hnodup].
  apply Habsent; simpl; apply list_elem_of_singleton; reflexivity.
Defined.

Example torch_turn_inventory :
  inventory (updateGameState torchDelta torchState) = ["rusty key"].
Proof. reflexivity. Qed.

(** The first scenario of the specification, run from the mounted
    component: the inventory is the rusty key, the quest is unchanged, the
    log has three segments and the choices are those of the answer. *)
Example search_the_room_scenario :
  let w := run [ KeyCheckResolves 0 rustyKeyHost 1700000000000;
                 Submit 1700000001000 1700000001000 "Search the room";
                 StoryResolves 1 rustyKeyHost 1700000001500 1700000001500 ] in
  inventory (gameState (app w)) = ["rusty key"]
  ∧ currentQuest (gameState (app w)) = "Awaken and find your purpose."
  ∧ length (storyLog (app w)) = 3%nat
  ∧ currentChoices (app w) = ["Use key"; "Leave"]
  ∧ loading (app w) = false.
Proof. vm_compute. by split_and!. Qed.

(** ** Quest replacement *)

Lemma or_else_truthy (q b : string) : q ≠ "" → Js.or_else (Some q) b = q.
Proof.
  intros Hq. unfold Js.or_else, Js.truthy_opt, Js.truthy.
  by rewrite bool_decide_true.
Qed.

Lemma or_else_empty (b : string) : Js.or_else (Some "") b = b.
Proof. reflexivity. Qed.

Lemma or_else_null (b : string) : Js.or_else None b = b.
Proof. reflexivity. Qed.

Lemma or_else_cases (a : option string) (b : string) :
  (∃ q, a = Some q ∧ q ≠ "" ∧ Js.or_else a b = q)
  ∨ ((a = None ∨ a = Some "") ∧ Js.or_else a b = b).
Proof.
  destruct a as [q|]; [|right; split; [by left|reflexivity]].
  destruct (decide (q = "")) as [->|Hq].
  - right. split; [by right|reflexivity].
  - left. exists q. by rewrite or_else_truthy.
Qed.

Lemma or_else_nonempty (a : option string) (b : string) :
  b ≠ "" → Js.or_else a b ≠ "".
Proof.
  intros Hb. destruct (or_else_cases a b) as [(q & _ & Hq & ->)|[_ ->]]; done.
Qed.

Lemma null_deltas_keep_quest (deltas : list StoryResult) :
  Forall (λ d, new_quest d = None) deltas →
  ∀ prev, currentQuest (foldl (λ g d, updateGameState d g) prev deltas)
          = currentQuest prev.
Proof.
  induction 1 as [|d deltas Hd _ IH]; intros prev; simpl; [done|].
  rewrite IH. simpl. by rewrite Hd.
Qed.

(** C2, as stated, fails: the delta [emptyQuestDelta] carries a non-null
    quest string, and the stored quest does not change. *)
Lemma quest_changes_iff_non_null_fails :
  ¬ (currentQuest (updateGameState emptyQuestDelta (gameState initialAppState))
       ≠ currentQuest (gameState initialAppState)
     ↔ new_quest emptyQuestDelta ≠ None).
Proof. intros [_ Hchg]. apply Hchg; [discriminate|reflexivity]. Qed.

(** C2, amended. The stored quest changes iff the delta carries a non-null,
    non-empty quest string that differs from the stored one, and it then
    becomes that string; a null quest leaves it unchanged, and so does any
    sequence of null-quest deltas. *)
Theorem quest_changes_iff_truthy_and_new
    (prev : GameState) (result : StoryResult) :
  (currentQuest (updateGameState result prev) ≠ currentQuest prev
     ↔ ∃ q, new_quest result = Some q ∧ q ≠ "" ∧ q ≠ currentQuest prev)
  ∧ (∀ q, new_quest result = Some q → q ≠ "" →
       currentQuest (updateGameState result prev) = q)
  ∧ (new_quest result = None →
       currentQuest (updateGameState result prev) = currentQuest prev)
  ∧ (∀ deltas, Forall (λ d, new_quest d = None) deltas →
       currentQuest (foldl (λ g d, updateGameState d g) prev deltas)
       = currentQuest prev).
Proof.
  simpl. split_and!.
  - destruct (or_else_cases (new_quest result) (currentQuest prev))
      as [(q & Hq & Hne & ->)|[Hfalsy ->]].
    + split; [intros; by exists q|]. intros (q' & Hq' & _ & Hdiff). congruence.
    + split; [done|]. intros (q & Hq & Hne & _).
      destruct Hfalsy; congruence.
  - intros q -> Hq. by apply or_else_truthy.
  - by intros ->.
  - intros deltas Hnull. by apply null_deltas_keep_quest.
Qed.

Lemma quest_changes_witness :
  currentQuest (updateGameState questDelta torchState) = "Find the lost crown."
  ∧ currentQuest (updateGameState torchDelta torchState)
    = currentQuest torchState
  ∧ currentQuest
      (foldl (λ g d, updateGameState d g) torchState [torchDelta; torchDelta])
    = currentQuest torchState.
Proof.
  split_and!.
  - apply (quest_changes_iff_truthy_and_new torchState questDelta);
      [reflexivity|discriminate].
  - apply (quest_changes_iff_truthy_and_new torchState torchDelta).
    reflexivity.
  - apply (quest_changes_iff_truthy_and_new torchState torchDelta).
    repeat constructor.
Defined.

(** ** Reachable worlds *)

Lemma run_snoc (events : list Event) (e : Event) :
  run (events ++ [e]) = step e (run events).
Proof. unfold run. by rewrite foldl_app. Qed.

(** Induction over the events of a run. *)
Lemma run_invariant (P : World → Prop) :
  P mounted → (∀ e w, P w → P (step e w)) → ∀ events, P (run events).
Proof.
  intros Hinit Hstep events.
  induction events as [|e events IH] using rev_ind; [done|].
  rewrite run_snoc. by apply Hstep.
Qed.

Lemma step_inventory_NoDup (e : Event) (w : World) :
  NoDup (inventory (gameState (app w))) →
  NoDup (inventory (gameState (app (step e w)))).
Proof.
  intros Hnd. destruct e as [tid tts a|i h now|i h tid tts|i h|s| |sz]; simpl;
    try done.
  - unfold handleAction. by destruct (loading (app w)).
  - destruct (calls w !! i) as [[sz|? ? ? ? ?|? ? ?]|]; try done.
    simpl. unfold init_resume.
    destruct (checkAndRequestApiKey h) as [[]|]; done.
  - destruct (calls w !! i) as [[sz|hs a inv q sz|? ? ?]|]; try done.
    simpl. unfold handleAction_resume.
    destruct (readStoryResult (generateStorySegment h hs a inv q)) as [r|]; [|done].
    simpl. apply NoDup_mergeInventory.
  - destruct (calls w !! i) as [[sz|? ? ? ? ?|sid p sz]|]; try done.
    simpl. unfold generateImageForSegment_resume.
    destruct (generateSceneImage h p sz) as [[u|]|]; try done.
    simpl. by destruct (Js.truthy u).
Qed.

(** The inventory of every reachable world is duplicate-free. *)
Lemma reachable_inventory_NoDup (events : list Event) :
  NoDup (inventory (gameState (app (run events)))).
Proof.
  apply (run_invariant (λ w, NoDup (inventory (gameState (app w))))).
  - apply NoDup_nil_2.
  - intros e w. apply step_inventory_NoDup.
Qed.

(** ** Narrative call: which failures are absorbed *)

Lemma mapM_asString (l : list string) : mapM asString (Js.JString <$> l) = Some l.
Proof. by apply mapM_fmap_Some. Qed.

(** A response that follows the schema is read as the record of its
    fields. *)
Lemma asStoryResult_storyResultValue (result : StoryResult) :
  asStoryResult (storyResultValue result) = Some result.
Proof.
  destruct result as [n ia ir nq ip sc]. unfold asStoryResult. simpl.
  rewrite !mapM_asString. simpl. by destruct nq.
Qed.

Lemma asStoryResult_fallback : asStoryResult storyFallbackValue = Some storyFallback.
Proof. reflexivity. Qed.

Lemma generateStorySegment_throws host history userAction inv quest e :
  getClient host = Js.Throw e →
  generateStorySegment host history userAction inv quest = Js.Throw e.
Proof. unfold generateStorySegment. by intros ->. Qed.

Lemma generateStorySegment_returns host ai history userAction inv quest :
  getClient host = Js.Normal ai →
  ∃ value,
    generateStorySegment host history userAction inv quest = Js.Normal value.
Proof.
  unfold generateStorySegment, Js.try_catch. intros ->. simpl.
  destruct (storyAttempt _ _ _) as [r|e]; eauto.
Qed.

Lemma generateStorySegment_fallback host ai history userAction inv quest :
  getClient host = Js.Normal ai →
  storyAttemptFails host ai
    (storyRequest host history userAction inv quest) →
  generateStorySegment host history userAction inv quest
  = Js.Normal storyFallbackValue.
Proof.
  unfold storyAttemptFails, generateStorySegment, storyAttempt. intros ->.
  simpl.
  destruct (GenAI.generateContent _ _) as [response|e]; simpl; [|done].
  destruct (GenAI.text response) as [t|]; simpl; [|done].
  intros [->|[e He]]; [done|].
  unfold Js.truthy. case_bool_decide; simpl; [|done]. by rewrite He.
Qed.

Lemma fallback_turn (tid tts : Z) (size : ImageSize) (st : AppState) :
  NoDup (inventory (gameState st)) →
  let st' := (handleAction_resume (Js.Normal storyFallback) tid tts size st).1 in
  gameState st' = gameState st
  ∧ storyLog st' = storyLog st ++ [newSegment tid tts storyFallback]
  ∧ currentChoices st' = ["Try again"]
  ∧ loading st' = false.
Proof.
  intros Hnd. simpl. split_and!; try done.
  unfold updateGameState. rewrite mergeInventory_empty_delta by done.
  simpl. by destruct (gameState st).
Qed.

(** C3, at inputs where it fails. With no key in the environment the
    constructor of the client throws; [getClient()] is called before the
    [try] block, so [generateStorySegment] raises instead of returning the
    fallback: the turn stops at its [await], with [loading] set, no call
    outstanding, and no narrative segment. And a response that parses but
    is not shaped like the schema, here the empty object, is returned as it
    is, not replaced by the fallback. *)
Theorem story_generation_raises_without_a_key :
  generateStorySegment hostWithoutSelectedKey [] "Search the room" []
    "Awaken and find your purpose."
  = Js.Throw "An API Key must be set when running in a browser"
  ∧ (let w := run keylessRun in
     loading (app w) = true
     ∧ storyCallsInFlight w = 0%nat
     ∧ id <$> storyLog (app w) = ["init"; "1700000001000-user"]
     ∧ currentChoices (app w)
       = ["Search the room"; "Call out for help"; "Examine yourself"])
  ∧ generateStorySegment emptyObjectHost [] "Search the room" []
      "Awaken and find your purpose."
    = Js.Normal (Js.JObject [])
  ∧ Js.JObject [] ≠ storyFallbackValue.
Proof. vm_compute. by split_and!. Qed.

(** ** Submissions during a turn *)

(** C4. While a narrative call is outstanding ([loading] is set), submitting
    an action changes nothing: the component state (log, game state,
    choices, in-flight flag) and the outstanding calls are as before, and
    the handler starts no call. *)
Theorem submission_while_loading_is_ignored
    (w : World) (tid tts : Z) (action : string) :
  loading (app w) = true →
  handleAction tid tts action (app w) = (app w, [])
  ∧ step (Submit tid tts action) w = w.
Proof.
  intros Hl. unfold step, handleAction. rewrite Hl. simpl.
  split; [done|]. destruct w as [st cs]. simpl. by rewrite app_nil_r.
Qed.

Lemma submission_while_loading_witness :
  step (Submit 1700000000001 1700000000001 "Call out for help")
    (run [Submit 1700000000000 1700000000000 "Search the room"])
  = run [Submit 1700000000000 1700000000000 "Search the room"].
Proof.
  apply (submission_while_loading_is_ignored
           (run [Submit 1700000000000 1700000000000 "Search the room"])
           1700000000001 1700000000001 "Call out for help").
  reflexivity.
Defined.

(** ** Scene images *)

Lemma firstInlineImage_none (ps : list GenAI.Part) :
  Forall noInlineData ps → firstInlineImage ps = None.
Proof. induction 1 as [|p ps Hp _ IH]; simpl; [done|]. by rewrite Hp. Qed.

Lemma firstInlineImage_first (before after : list GenAI.Part)
    (part : GenAI.Part) (d : GenAI.InlineData) :
  Forall noInlineData before → GenAI.inlineData part = Some d →
  firstInlineImage (before ++ part :: after) = Some (dataUri d).
Proof.
  intros Hb Hd. induction Hb as [|p ps Hp _ IH]; simpl.
  - by rewrite Hd.
  - by rewrite Hp.
Qed.

Lemma firstInlineImage_cases (ps : list GenAI.Part) :
  (Forall noInlineData ps ∧ firstInlineImage ps = None)
  ∨ (∃ before part d after,
        ps = before ++ part :: after ∧ Forall noInlineData before
        ∧ GenAI.inlineData part = Some d
        ∧ firstInlineImage ps = Some (dataUri d)).
Proof.
  induction ps as [|p ps IH]; [left; by split|].
  destruct (GenAI.inlineData p) as [d|] eqn:Hp.
  - right. exists [], p, d, ps. simpl. by rewrite Hp.
  - destruct IH as [[Hall Hnone]|(before & part & d & after & -> & Hb & Hd & Hf)].
    + left. split; [by constructor|]. simpl. by rewrite Hp.
    + right. exists (p :: before), part, d, after. simpl. rewrite Hp.
      split_and!; [done|by constructor|done|done].
Qed.

Lemma dataUri_truthy (d : GenAI.InlineData) : Js.truthy (dataUri d) = true.
Proof. unfold Js.truthy. by apply bool_decide_eq_true_2. Qed.

Lemma generateSceneImage_throws (host : Host) (prompt : string)
    (size : ImageSize) (e : string) :
  getClient host = Js.Throw e →
  generateSceneImage host prompt size = Js.Throw e.
Proof. unfold generateSceneImage. by intros ->. Qed.

Lemma generateSceneImage_client (host : Host) (ai : GenAI.GoogleGenAI)
    (prompt : string) (size : ImageSize) :
  getClient host = Js.Normal ai →
  generateSceneImage host prompt size
  = match GenAI.generateContent ai (imageRequest prompt size) with
    | Js.Normal response => Js.Normal (firstInlineImage (responseParts response))
    | Js.Throw _ => Js.Normal None
    end.
Proof.
  unfold generateSceneImage, Js.try_catch, Js.bind. intros ->.
  by destruct (GenAI.generateContent _ _).
Qed.

(** An image that [generateSceneImage] returns is a non-empty string, so
    the test [if (imageUrl)] of the caller only filters out null. *)
Lemma generateSceneImage_url_truthy (host : Host) (prompt : string)
    (size : ImageSize) (url : string) :
  generateSceneImage host prompt size = Js.Normal (Some url) →
  Js.truthy url = true.
Proof.
  destruct (getClient host) as [ai|e] eqn:Hclient.
  - rewrite (generateSceneImage_client host ai prompt size Hclient).
    destruct (GenAI.generateContent _ _) as [response|e]; [|done].
    destruct (firstInlineImage_cases (responseParts response))
      as [[_ ->]|(before & part & d & after & _ & _ & _ & ->)]; [done|].
    intros [= <-]. apply dataUri_truthy.
  - by rewrite (generateSceneImage_throws host prompt size e Hclient).
Qed.

(** The log is append-only under turns: player input and the completion of
    a narrative call leave every segment of the log as it is. *)
Lemma turn_events_keep_segments (e : Event) (w : World) (k : nat)
    (seg : StorySegment) :
  isTurnEvent e = true →
  storyLog (app w) !! k = Some seg →
  storyLog (app (step e w)) !! k = Some seg.
Proof.
  intros He Hk.
  destruct e as [tid tts a|i h now|i h tid tts|i h|s| |sz]; simpl;
    try done.
  - unfold handleAction. destruct (loading (app w)); [done|].
    simpl. by apply lookup_app_l_Some.
  - destruct (calls w !! i) as [[sz|hs a inv q sz|? ? ?]|]; try done.
    simpl. unfold handleAction_resume.
    destruct (readStoryResult (generateStorySegment h hs a inv q)) as [r|]; [|done].
    simpl. by apply lookup_app_l_Some.
Qed.

(** C6, at an input where it fails. With no key in the environment the
    constructor of the client throws; [getClient()] is called before the
    [try] block, so [generateSceneImage] raises instead of returning null.
    In the game started without a key the image call of the initial
    segment ends so: the rejection leaves [generateImageForSegment], the
    state is as before and no call is outstanding. *)
Theorem scene_image_raises_without_a_key :
  generateSceneImage hostWithoutSelectedKey
    "A dimly lit ancient stone chamber, cold atmosphere, dust motes in light beam."
    Size1K
  = Js.Throw "An API Key must be set when running in a browser"
  ∧ (let w := run keylessStart in
     let w' := step (ImageResolves 0 hostWithoutSelectedKey) w in
     calls w
     = [ImageCall "init"
          "A dimly lit ancient stone chamber, cold atmosphere, dust motes in light beam."
          Size1K]
     ∧ app w' = app w
     ∧ calls w' = []
     ∧ imageUrl <$> storyLog (app w') = [None]).
Proof. vm_compute. by split_and!. Qed.

(** ** History of a narrative call *)

Lemma slice_last_suffix {A} (n : nat) (l : list A) :
  Js.slice_last n l `suffix_of` l.
Proof. apply suffix_drop. Qed.

Lemma slice_last_length {A} (n : nat) (l : list A) :
  length (Js.slice_last n l) = n `min` length l.
Proof. unfold Js.slice_last. rewrite length_drop. lia. Qed.

Lemma slice_last_all {A} (n : nat) (l : list A) :
  (length l ≤ n)%nat → Js.slice_last n l = l.
Proof.
  intros Hle. unfold Js.slice_last.
  by replace (length l - n)%nat with 0%nat by lia.
Qed.

(** C7. The history of the narrative call of a turn is the text of the last
    five narrative segments of the log at submission, in log order: the
    segments are the last [min 5 n] of the [n] non-user segments, none of
    them is a player action, and the context sent to the backend is these
    texts joined by line feeds, none dropped. *)
Theorem history_is_last_five_narrative_texts
    (st : AppState) (tid tts : Z) (action : string) :
  loading st = false →
  let narrativeLog := filter (λ s, isNarrative s = true) (storyLog st) in
  ∃ segs,
    (handleAction tid tts action st).2
    = [StoryCall (text <$> segs) action (inventory (gameState st))
         (currentQuest (gameState st)) (imageResolution st)]
    ∧ segs `suffix_of` narrativeLog
    ∧ length segs = 5 `min` length narrativeLog
    ∧ segs `sublist_of` storyLog st
    ∧ Forall (λ s, Js.truthy_flag (isUser s) = false) segs
    ∧ storyContext (text <$> segs) = Js.join Js.LF (text <$> segs).
Proof.
  intros Hl narrativeLog. exists (Js.slice_last 5 narrativeLog).
  assert (Js.slice_last 5 narrativeLog `suffix_of` narrativeLog) as Hsuf
    by apply slice_last_suffix.
  split_and!.
  - unfold handleAction. by rewrite Hl.
  - done.
  - apply slice_last_length.
  - etrans; [apply sublist_drop|]. apply sublist_filter.
  - apply Forall_forall. intros s Hs.
    assert (s ∈ narrativeLog) as Hin.
    { destruct Hsuf as [k ->]. apply elem_of_app. by right. }
    apply list_elem_of_filter in Hin as [Hnarr _].
    unfold isNarrative in Hnarr. by apply negb_true_iff.
  - unfold storyContext. rewrite slice_last_all; [done|].
    rewrite length_fmap, slice_last_length. lia.
Qed.

Lemma history_witness :
  ∃ segs,
    (handleAction 1700000010000 1700000010000 "Go on" sampleState).2
    = [StoryCall (text <$> segs) "Go on" [] "Awaken and find your purpose."
         Size1K]
    ∧ length segs = 5%nat
    ∧ Forall (λ s, Js.truthy_flag (isUser s) = false) segs.
Proof.
  destruct (history_is_last_five_narrative_texts sampleState
              1700000010000 1700000010000 "Go on" eq_refl)
    as (segs & Hcall & _ & Hlen & _ & Huser & _).
  exists segs. split_and!; [exact Hcall|exact Hlen|exact Huser].
Defined.

Example sample_history :
  historyText sampleLog
  = [ "The torch gutters and dies."; "Nothing stirs.";
      "The mists of uncertainty cloud your vision... (AI Generation Error, please try again).";
      "A voice names your task."; "The torch gutters and dies." ].
Proof. reflexivity. Qed.

(** ** Image patch *)

Lemma patchImageUrl_lookup (segmentId url : string) (log : list StorySegment)
    (i : nat) :
  patchImageUrl segmentId url log !! i
  = (λ seg, if decide (id seg = segmentId) then withImageUrl url seg else seg)
      <$> log !! i.
Proof. unfold patchImageUrl. apply list_lookup_fmap. Qed.

Lemma patchImageUrl_ids (segmentId url : string) (log : list StorySegment) :
  id <$> patchImageUrl segmentId url log = id <$> log.
Proof.
  unfold patchImageUrl. rewrite <-list_fmap_compose.
  apply list_fmap_ext. intros i seg _. simpl. by case_decide.
Qed.

Lemma patchImageUrl_absent (segmentId url : string) (log : list StorySegment) :
  Forall (λ seg, id seg ≠ segmentId) log →
  patchImageUrl segmentId url log = log.
Proof.
  unfold patchImageUrl. induction 1 as [|seg log Hseg _ IH]; [done|].
  rewrite fmap_cons, IH. by rewrite decide_False.
Qed.

(** C8. When an image call resolves with an image for segment id [s], the
    patched log has the length and the order of the old one; a segment
    whose id is not [s] is unchanged; a segment whose id is [s] has
    [imageUrl] set to the image and every other field unchanged; when no
    segment has id [s] the log is unchanged. The rest of the component
    state is not touched. *)
Theorem image_patch_touches_only_the_segment
    (segmentId url : string) (log : list StorySegment) :
  let log' := patchImageUrl segmentId url log in
  length log' = length log
  ∧ id <$> log' = id <$> log
  ∧ (∀ i seg, log !! i = Some seg → id seg ≠ segmentId →
       log' !! i = Some seg)
  ∧ (∀ i seg, log !! i = Some seg → id seg = segmentId →
       ∃ seg', log' !! i = Some seg'
         ∧ imageUrl seg' = Some url
         ∧ id seg' = id seg ∧ text seg' = text seg
         ∧ imagePrompt seg' = imagePrompt seg ∧ choices seg' = choices seg
         ∧ isUser seg' = isUser seg ∧ timestamp seg' = timestamp seg)
  ∧ (Forall (λ seg, id seg ≠ segmentId) log → log' = log)
  ∧ (url ≠ "" → ∀ st,
       let st' :=
         generateImageForSegment_resume segmentId (Js.Normal (Some url)) st in
       storyLog st' = patchImageUrl segmentId url (storyLog st)
       ∧ st' = setStoryLog (λ _, storyLog st') st).
Proof.
  intros log'. subst log'. split_and!.
  - unfold patchImageUrl. apply length_fmap.
  - apply patchImageUrl_ids.
  - intros i seg Hi Hid. rewrite patchImageUrl_lookup, Hi. simpl.
    by rewrite decide_False.
  - intros i seg Hi Hid. exists (withImageUrl url seg).
    rewrite patchImageUrl_lookup, Hi. simpl. by rewrite decide_True.
  - apply patchImageUrl_absent.
  - intros Hurl st. simpl. unfold Js.truthy.
    by rewrite bool_decide_true.
Qed.

Lemma image_patch_witness :
  patchImageUrl "1700000004000" "data:image/png;base64,iVBORw0KGgo=" sampleLog
    !! 1%nat
  = Some (userSegment 1700000001000 1700000001000 "Search the room")
  ∧ patchImageUrl "lost" "data:image/png;base64,iVBORw0KGgo=" sampleLog
    = sampleLog
  ∧ storyLog
      (generateImageForSegment_resume "1700000004000"
         (Js.Normal (Some "data:image/png;base64,iVBORw0KGgo=")) sampleState)
    = patchImageUrl "1700000004000" "data:image/png;base64,iVBORw0KGgo="
        sampleLog.
Proof.
  split_and!.
  - apply (image_patch_touches_only_the_segment "1700000004000"
             "data:image/png;base64,iVBORw0KGgo=" sampleLog);
      [reflexivity|vm_compute; discriminate].
  - apply (image_patch_touches_only_the_segment "lost"
             "data:image/png;base64,iVBORw0KGgo=" sampleLog).
    repeat constructor; vm_compute; discriminate.
  - apply (image_patch_touches_only_the_segment "1700000004000"
             "data:image/png;base64,iVBORw0KGgo=" sampleLog).
    discriminate.
Defined.

Example image_patch_sets_the_url :
  imageUrl <$> patchImageUrl "1700000004000"
                 "data:image/png;base64,iVBORw0KGgo=" sampleLog !! 4%nat
  = Some (Some "data:image/png;base64,iVBORw0KGgo=").
Proof. vm_compute. reflexivity. Qed.

(** ** Credential check *)

(** Whatever the hook answers, a check that returns returns [true]. *)
Lemma checkAndRequestApiKey_true (host : Host) (b : bool) :
  checkAndRequestApiKey host = Js.Normal b → b = true.
Proof.
  unfold checkAndRequestApiKey.
  destruct (aistudio host) as [hook|]; [|congruence].
  destruct (hasSelectedApiKey hook) as [[[]|]|]; simpl; try congruence.
  destruct (openSelectKey hook); simpl; congruence.
Qed.

(** C5, at the input where it fails. The hook reports no selected key, the
    selection flow is opened and returns, and the check answers [true]
    without asking the hook again: the initial segment is created, the
    choices are offered and the reload prompt is not shown. *)
Theorem game_starts_without_confirmed_key :
  hasSelectedApiKey <$> aistudio hostWithoutSelectedKey
  = Some (Some (Js.Normal false))
  ∧ checkAndRequestApiKey hostWithoutSelectedKey = Js.Normal true
  ∧ (let w := run [KeyCheckResolves 0 hostWithoutSelectedKey 1700000000000] in
     hasApiKey (app w) = true
     ∧ storyLog (app w) = [initialSegment 1700000000000]
     ∧ currentChoices (app w)
       = ["Search the room"; "Call out for help"; "Examine yourself"]
     ∧ showsReloadPrompt (app w) = false
     ∧ calls w
       = [ImageCall "init"
            "A dimly lit ancient stone chamber, cold atmosphere, dust motes in light beam."
            Size1K]).
Proof. vm_compute. by split_and!. Qed.

(** ** Segment ids *)

(** *** Decimal strings

    [n.toString()] on an integer is [pretty]: decimal digits, with a
    leading dash for a negative number. *)

Lemma chars_app (s1 s2 : string) : chars (s1 +:+ s2) = chars s1 ++ chars s2.
Proof. induction s1 as [|c s1 IH]; simpl; [done|]. by rewrite <-IH. Qed.

#[local] Instance chars_inj : Inj (=) (=) chars.
Proof.
  intros s1 s2 Heq.
  rewrite <-(String.string_of_list_ascii_of_string s1),
    <-(String.string_of_list_ascii_of_string s2).
  unfold chars in Heq. by rewrite Heq.
Qed.

#[local] Instance append_suffix_inj (suffix : string) :
  Inj (=) (=) (λ s, s +:+ suffix).
Proof.
  intros s1 s2 Heq. apply (inj chars). apply (f_equal chars) in Heq.
  rewrite !chars_app in Heq. by apply app_inv_tail in Heq.
Qed.

Lemma pretty_N_char_decimal (x : N) : decimalChar (pretty_N_char x).
Proof.
  unfold decimalChar, pretty_N_char.
  repeat case_match; vm_compute; set_solver.
Qed.

Lemma pretty_N_go_decimal (x : N) :
  ∀ s, Forall decimalChar (chars s) →
       Forall decimalChar (chars (pretty_N_go x s)).
Proof.
  induction (N.lt_wf_0 x) as [x _ IH]; intros s Hs.
  destruct (decide (x = 0)%N) as [->|Hx]; [by rewrite pretty_N_go_0|].
  rewrite pretty_N_go_step by lia. apply IH.
  - apply N.div_lt; lia.
  - simpl. constructor; [apply pretty_N_char_decimal|done].
Qed.

Lemma pretty_N_decimal (x : N) : Forall decimalChar (chars (pretty x)).
Proof.
  unfold pretty, pretty_N. case_decide.
  - repeat constructor; vm_compute; set_solver.
  - apply pretty_N_go_decimal. constructor.
Qed.

Lemma pretty_Z_decimal (t : Z) : Forall decimalChar (chars (pretty t)).
Proof.
  destruct t as [|p|p]; unfold pretty, pretty_Z.
  - repeat constructor; vm_compute; set_solver.
  - apply pretty_N_decimal.
  - rewrite chars_app. apply Forall_app. split.
    + repeat constructor; vm_compute; set_solver.
    + apply pretty_N_decimal.
Qed.

Lemma decimal_not_init (t : Z) : pretty t ≠ "init".
Proof.
  intros Heq. pose proof (pretty_Z_decimal t) as Hdec. rewrite Heq in Hdec.
  apply Forall_cons in Hdec as [Hi _]. vm_compute in Hi. set_solver.
Qed.

Lemma user_id_not_decimal (t t' : Z) : pretty t +:+ "-user" ≠ pretty t'.
Proof.
  intros Heq. pose proof (pretty_Z_decimal t') as Hdec. rewrite <-Heq in Hdec.
  rewrite chars_app in Hdec. apply Forall_app in Hdec as [_ Hdec].
  apply Forall_cons in Hdec as [_ Hdec].
  apply Forall_cons in Hdec as [Hu _]. vm_compute in Hu. set_solver.
Qed.

Lemma user_id_not_init (t : Z) : pretty t +:+ "-user" ≠ "init".
Proof.
  intros Heq. apply (f_equal chars) in Heq. rewrite chars_app in Heq.
  assert ("u"%char ∈ chars "init") as Hu.
  { rewrite <-Heq. apply elem_of_app. right. vm_compute. set_solver. }
  vm_compute in Hu. set_solver.
Qed.

Lemma user_id_inj (t t' : Z) :
  pretty t +:+ "-user" = pretty t' +:+ "-user" → t = t'.
Proof. intros Heq. by apply (inj pretty), (inj (λ s, s +:+ "-user")). Qed.

(** *** Clock reads that become ids *)

(** What one event does to the ids of the log. *)
Lemma step_logIds (e : Event) (w : World) :
  logIds (step e w) = logIds w
  ∨ logIds (step e w) = ["init"]
  ∨ (∃ tid tts a, e = Submit tid tts a
       ∧ logIds (step e w) = logIds w ++ [pretty tid +:+ "-user"])
  ∨ (∃ i h tid tts, e = StoryResolves i h tid tts
       ∧ logIds (step e w) = logIds w ++ [pretty tid]).
Proof.
  unfold logIds.
  destruct e as [tid tts a|i h now|i h tid tts|i h|s| |sz]; simpl;
    try (by left).
  - unfold handleAction. destruct (loading (app w)); [by left|].
    right; right; left. exists tid, tts, a. simpl. by rewrite fmap_app.
  - destruct (calls w !! i) as [[sz|? ? ? ? ?|? ? ?]|]; try (by left).
    simpl. unfold init_resume.
    destruct (checkAndRequestApiKey h) as [[]|]; [|by left..].
    right; left. done.
  - destruct (calls w !! i) as [[sz|hs a inv q sz|? ? ?]|]; try (by left).
    simpl. unfold handleAction_resume.
    destruct (readStoryResult (generateStorySegment h hs a inv q)) as [r|]; [|by left].
    right; right; right. exists i, h, tid, tts. simpl. by rewrite fmap_app.
  - destruct (calls w !! i) as [[sz|? ? ? ? ?|sid p sz]|]; try (by left).
    simpl. unfold generateImageForSegment_resume.
    destruct (generateSceneImage h p sz) as [[u|]|]; try (by left).
    simpl. destruct (Js.truthy u); [|by left].
    left. simpl. apply patchImageUrl_ids.
Qed.

Lemma idsFrom_mono (events : list Event) (e : Event) (ids : list string) :
  idsFrom events ids → idsFrom (events ++ [e]) ids.
Proof.
  intros Hfrom s Hs. unfold submitReads, storyReads. rewrite !omap_app.
  destruct (Hfrom s Hs) as [->|[(t & Ht & ->)|(t & Ht & ->)]].
  - by left.
  - right; left. exists t. split; [|done]. apply elem_of_app. by left.
  - right; right. exists t. split; [|done]. apply elem_of_app. by left.
Qed.

Lemma reachable_ids (events : list Event) :
  NoDup (submitReads events) → NoDup (storyReads events) →
  NoDup (logIds (run events)) ∧ idsFrom events (logIds (run events)).
Proof.
  induction events as [|e events IH] using rev_ind; intros Hsub Hsto.
  { split; [apply NoDup_nil_2|]. intros s Hs. by apply elem_of_nil in Hs. }
  unfold submitReads, storyReads in Hsub, Hsto.
  rewrite omap_app in Hsub, Hsto.
  apply NoDup_app in Hsub as (Hsub & Hsubfresh & _).
  apply NoDup_app in Hsto as (Hsto & Hstofresh & _).
  destruct (IH Hsub Hsto) as [Hnd Hfrom]. rewrite run_snoc.
  destruct (step_logIds e (run events))
    as [->|[->|[(tid & tts & a & -> & ->)|(i & h & tid & tts & -> & ->)]]].
  - split; [done|]. by apply idsFrom_mono.
  - split; [apply NoDup_singleton|].
    intros s ->%list_elem_of_singleton. by left.
  - split.
    + apply NoDup_app. split_and!; [done| |apply NoDup_singleton].
      intros s Hs ->%list_elem_of_singleton.
      destruct (Hfrom _ Hs) as [Hi|[(t & Ht & Heq)|(t & Ht & Heq)]].
      * by apply user_id_not_init in Hi.
      * apply user_id_inj in Heq as <-.
        apply (Hsubfresh tid Ht). simpl. left.
      * by apply user_id_not_decimal in Heq.
    + intros s [Hs| ->%list_elem_of_singleton]%elem_of_app.
      * by apply (idsFrom_mono _ _ _ Hfrom).
      * right; left. exists tid. split; [|done].
        unfold submitReads. rewrite omap_app. apply elem_of_app. right.
        simpl. left.
  - split.
    + apply NoDup_app. split_and!; [done| |apply NoDup_singleton].
      intros s Hs ->%list_elem_of_singleton.
      destruct (Hfrom _ Hs) as [Hi|[(t & Ht & Heq)|(t & Ht & Heq)]].
      * by apply decimal_not_init in Hi.
      * symmetry in Heq. by apply user_id_not_decimal in Heq.
      * apply (inj pretty) in Heq as <-.
        apply (Hstofresh tid Ht). simpl. left.
    + intros s [Hs| ->%list_elem_of_singleton]%elem_of_app.
      * by apply (idsFrom_mono _ _ _ Hfrom).
      * right; right. exists tid. split; [|done].
        unfold storyReads. rewrite omap_app. apply elem_of_app. right.
        simpl. left.
Qed.

(** C9, at an input where it fails. In [repeatedReadRun] the clock is read
    twice at 1700000001005 for a narrative segment (lines 107-108 of App.tsx
    take the id from [Date.now().toString()] alone): the log then holds two
    narrative segments with the id "1700000001005", so its ids are not
    unique; both image calls are started for that one id, and the image
    that answers the first of them is patched, by id, onto both segments. *)
Theorem ids_collide_on_repeated_clock_read :
  let w := run repeatedReadRun in
  id <$> storyLog (app w)
  = [ "init"; "1700000001000-user"; "1700000001005";
      "1700000001005-user"; "1700000001005" ]
  ∧ ¬ NoDup (id <$> storyLog (app w))
  ∧ imageCallSegment <$> calls w
    = [ Some "init"; Some "1700000001005"; Some "1700000001005" ]
  ∧ imageUrl <$> storyLog (app w) = [ None; None; None; None; None ]
  ∧ imageUrl <$> storyLog (app (step (ImageResolves 1 imageHost) w))
    = [ None; None; Some "data:image/png;base64,iVBORw0KGgo="; None;
        Some "data:image/png;base64,iVBORw0KGgo=" ].
Proof.
  assert (id <$> storyLog (app (run repeatedReadRun))
          = [ "init"; "1700000001000-user"; "1700000001005";
              "1700000001005-user"; "1700000001005" ]) as Hids
    by (vm_compute; reflexivity).
  cbv zeta. split_and!.
  - exact Hids.
  - rewrite Hids, !NoDup_cons. set_solver.
  - vm_compute; reflexivity.
  - vm_compute; reflexivity.
  - vm_compute; reflexivity.
Qed.

(** Where the clock readings taken for the ids of player-action segments are
    pairwise distinct, and so are those taken for the ids of narrative
    segments, the three shapes of id ("init", [<ms>-user], [<ms>]) keep every
    id of the log apart. *)
Lemma ids_apart_when_clock_reads_differ (events : list Event) :
  NoDup (submitReads events) → NoDup (storyReads events) →
  NoDup (id <$> storyLog (app (run events))).
Proof. intros Hsub Hsto. by apply reachable_ids. Qed.

Example two_turn_log_length : length (storyLog (app (run twoTurnRun))) = 5%nat.
Proof. reflexivity. Qed.

(** ** The quest is never empty *)

Lemma step_quest_nonempty (e : Event) (w : World) :
  currentQuest (gameState (app w)) ≠ "" →
  currentQuest (gameState (app (step e w))) ≠ "".
Proof.
  intros Hq. destruct e as [tid tts a|i h now|i h tid tts|i h|s| |sz]; simpl;
    try done.
  - unfold handleAction. by destruct (loading (app w)).
  - destruct (calls w !! i) as [[sz|? ? ? ? ?|? ? ?]|]; try done.
    simpl. unfold init_resume.
    destruct (checkAndRequestApiKey h) as [[]|]; done.
  - destruct (calls w !! i) as [[sz|hs a inv q sz|? ? ?]|]; try done.
    simpl. unfold handleAction_resume.
    destruct (readStoryResult (generateStorySegment h hs a inv q)) as [r|]; [|done].
    simpl. by apply or_else_nonempty.
  - destruct (calls w !! i) as [[sz|? ? ? ? ?|sid p sz]|]; try done.
    simpl. unfold generateImageForSegment_resume.
    destruct (generateSceneImage h p sz) as [[u|]|]; try done.
    simpl. by destruct (Js.truthy u).
Qed.

(** C10. A delta whose quest is the empty string leaves the quest as it
    was, exactly as a delta with a null quest does; and in every reachable
    world the current quest is not the empty string. *)
Theorem empty_quest_is_ignored :
  (∀ prev result nullResult,
     new_quest result = Some "" → new_quest nullResult = None →
     currentQuest (updateGameState result prev) = currentQuest prev
     ∧ currentQuest (updateGameState result prev)
       = currentQuest (updateGameState nullResult prev))
  ∧ (∀ events, currentQuest (gameState (app (run events))) ≠ "").
Proof.
  split.
  - intros prev result nullResult Hempty Hnull. simpl.
    by rewrite Hempty, Hnull.
  - apply (run_invariant (λ w, currentQuest (gameState (app w)) ≠ "")).
    + done.
    + apply step_quest_nonempty.
Qed.

Lemma empty_quest_witness :
  currentQuest (updateGameState emptyQuestDelta torchState)
  = currentQuest torchState
  ∧ currentQuest
      (gameState
         (app (run [ KeyCheckResolves 0 emptyQuestHost 1700000000000;
                     Submit 1700000001000 1700000001000 "Wait";
                     StoryResolves 1 emptyQuestHost 1700000001005
                       1700000001005 ])))
    ≠ "".
Proof.
  destruct empty_quest_is_ignored as [Hignored Hnever]. split.
  - apply (Hignored torchState emptyQuestDelta torchDelta); reflexivity.
  - apply Hnever.
Defined.

Example empty_quest_turn :
  currentQuest
    (gameState
       (app (run [ KeyCheckResolves 0 emptyQuestHost 1700000000000;
                   Submit 1700000001000 1700000001000 "Wait";
                   StoryResolves 1 emptyQuestHost 1700000001005
                     1700000001005 ])))
  = "Awaken and find your purpose.".
Proof. reflexivity. Qed.


(** * Further properties of the code *)

(** Case analysis on one event: the branches of the handler it runs. *)
Ltac step_cases e w :=
  destruct e as [?tid ?tts ?a|?i ?h ?now|?i ?h ?tid ?tts|?i ?h|?s| |?sz];
  simpl;
  [ unfold handleAction; destruct (loading (app w)) eqn:?Hloading; simpl
  | destruct (calls w !! _) as [[?sz|? ? ? ? ?|? ? ?]|] eqn:?Hcall; simpl;
    [ unfold init_resume;
      destruct (checkAndRequestApiKey _) as [[]|] eqn:?Hcheck; simpl
    | .. ]
  | destruct (calls w !! _) as [[?sz|?hs ?a ?inv ?q ?sz|? ? ?]|] eqn:?Hcall;
    simpl;
    [ | unfold handleAction_resume;
        destruct (readStoryResult _) as [?r|] eqn:?Hgen; simpl
    | .. ]
  | destruct (calls w !! _) as [[?sz|? ? ? ? ?|?sid ?p ?sz]|] eqn:?Hcall;
    simpl;
    [ | | unfold generateImageForSegment_resume;
          destruct (generateSceneImage _ _ _) as [[?u|]|] eqn:?Himg; simpl;
          [ destruct (Js.truthy _) eqn:?Htruthy; simpl | .. ]
    | ]
  | | | ].

(** ** What the sidebar shows *)

Lemma step_health_location (e : Event) (w : World) :
  health (gameState (app (step e w))) = health (gameState (app w))
  ∧ location (gameState (app (step e w))) = location (gameState (app w)).
Proof. step_cases e w; done. Qed.

Lemma reachable_health_location (events : list Event) :
  health (gameState (app (run events))) = 100%Z
  ∧ location (gameState (app (run events))) = "Unknown".
Proof.
  apply (run_invariant (λ w, health (gameState (app w)) = 100%Z
                             ∧ location (gameState (app w)) = "Unknown")).
  - done.
  - intros e w [Hh Hl]. destruct (step_health_location e w) as [-> ->]. done.
Qed.

Lemma reachable_quest_nonempty (events : list Event) :
  currentQuest (gameState (app (run events))) ≠ "".
Proof.
  apply (run_invariant (λ w, currentQuest (gameState (app w)) ≠ "")).
  - done.
  - apply step_quest_nonempty.
Qed.

(** X1. In every reachable world the inventory holds no item twice, so the
    sidebar lists each item once; the note for an empty inventory is shown
    exactly when there is no item. *)
Theorem sidebar_lists_each_item_once (events : list Event) :
  let g := gameState (app (run events)) in
  NoDup (inventory g)
  ∧ (inventoryShown g = EmptyNote ↔ inventory g = [])
  ∧ (∀ items, inventoryShown g = ItemList items →
       items = inventory g ∧ items ≠ [] ∧ NoDup items).
Proof.
  intros g. pose proof (reachable_inventory_NoDup events) as Hnd.
  fold g in Hnd. unfold inventoryShown. split_and!; [done|..].
  - case_decide as Hlen; [|split; [done|]].
    + split; [|done]. intros _. by apply nil_length_inv.
    + intros Hnil. by rewrite Hnil in Hlen.
  - intros items. case_decide as Hlen; [done|]. intros [= <-].
    split_and!; [done| |done]. intros Hnil. by rewrite Hnil in Hlen.
Qed.

(** X2. In every reachable world the sidebar shows the stored quest: the
    stored quest is never empty, so the stand-in text of the sidebar does
    not replace it. *)
Theorem sidebar_shows_the_stored_quest (events : list Event) :
  questShown (gameState (app (run events)))
  = currentQuest (gameState (app (run events))).
Proof.
  unfold questShown. apply or_else_truthy, reachable_quest_nonempty.
Qed.

(** X3. No event changes health or location: in every reachable world the
    health is 100 and the location is "Unknown", so the literal health line
    of the sidebar agrees with the stored health. *)
Theorem health_and_location_never_change (events : list Event) :
  let g := gameState (app (run events)) in
  health g = 100%Z
  ∧ location g = "Unknown"
  ∧ healthShown = pretty (health g) +:+ "/100".
Proof.
  intros g. destruct (reachable_health_location events) as [Hh Hl].
  fold g in Hh, Hl. rewrite Hh. done.
Qed.

(** ** One narrative call at a time *)

Lemma filter_length_delete {A} (P : A → Prop) `{!∀ x, Decision (P x)}
    (l : list A) (i : nat) (c : A) :
  l !! i = Some c →
  length (filter P l)
  = (length (filter P (delete i l)) + (if decide (P c) then 1 else 0))%nat.
Proof.
  intros Hi. rewrite delete_take_drop.
  rewrite <-(take_drop_middle l i c Hi) at 1.
  rewrite !filter_app, !length_app, filter_cons.
  case_decide; simpl; lia.
Qed.

Lemma inflight_finish (w : World) (i : nat) (c : Call) (st : AppState)
    (started : list Call) :
  calls w !! i = Some c →
  storyCallsInFlight (finish w i (st, started))
  = (storyCallsInFlight w - (if isStoryCall c then 1 else 0)
     + length (filter (λ c, isStoryCall c = true) started))%nat.
Proof.
  intros Hi. unfold storyCallsInFlight, finish. simpl.
  rewrite filter_app, length_app.
  rewrite (filter_length_delete _ (calls w) i c Hi).
  destruct (isStoryCall c); [rewrite decide_True by done|
                             rewrite decide_False by done]; lia.
Qed.

Lemma step_inflight (e : Event) (w : World) :
  (storyCallsInFlight w ≤ (if loading (app w) then 1 else 0))%nat →
  (storyCallsInFlight (step e w)
   ≤ (if loading (app (step e w)) then 1 else 0))%nat.
Proof.
  intros Hinv.
  step_cases e w; try done;
    try (rewrite (inflight_finish _ _ _ _ _ Hcall); simpl; lia).
  - unfold storyCallsInFlight in *. simpl. by rewrite app_nil_r, Hloading.
  - unfold storyCallsInFlight in *. simpl.
    rewrite filter_app, length_app. simpl. lia.
  - rewrite (inflight_finish _ _ _ _ _ Hcall). simpl.
    destruct (loading (app w)), (Js.truthy (image_prompt r)); simpl; lia.
Qed.

(** X4. At most one narrative call is outstanding, and none while
    [loading] is clear: in every reachable world the number of outstanding
    narrative calls is at most one, and it is zero when [loading] is not
    set. *)
Theorem one_narrative_call_at_a_time (events : list Event) :
  (storyCallsInFlight (run events) ≤ 1)%nat
  ∧ (loading (app (run events)) = false →
     storyCallsInFlight (run events) = 0%nat).
Proof.
  assert (storyCallsInFlight (run events)
          ≤ (if loading (app (run events)) then 1 else 0))%nat as Hinv.
  { apply (run_invariant
             (λ w, (storyCallsInFlight w
                    ≤ (if loading (app w) then 1 else 0))%nat)).
    - simpl. unfold storyCallsInFlight. simpl. lia.
    - apply step_inflight. }
  destruct (loading (app (run events))); split; try done; lia.
Qed.

(** ** The choices on display *)

Lemma patchImageUrl_narrative (segmentId url : string)
    (log : list StorySegment) :
  filter (λ s, isNarrative s = true) (patchImageUrl segmentId url log)
  = patchImageUrl segmentId url (filter (λ s, isNarrative s = true) log).
Proof.
  unfold patchImageUrl. induction log as [|seg log IH]; [done|].
  rewrite fmap_cons, !filter_cons, IH.
  assert (isNarrative
            (if decide (id seg = segmentId) then withImageUrl url seg else seg)
          = isNarrative seg) as -> by (by case_decide).
  by case_decide.
Qed.

Lemma offeredChoices_patch (segmentId url : string) (log : list StorySegment) :
  offeredChoices (patchImageUrl segmentId url log) = offeredChoices log.
Proof.
  unfold offeredChoices, lastNarrative. rewrite patchImageUrl_narrative.
  unfold patchImageUrl. rewrite fmap_last.
  destruct (last _) as [seg|]; [|done]. simpl. by case_decide.
Qed.

Lemma offeredChoices_user (log : list StorySegment) (tid tts : Z)
    (action : string) :
  offeredChoices (log ++ [userSegment tid tts action]) = offeredChoices log.
Proof.
  unfold offeredChoices, lastNarrative. rewrite filter_app.
  rewrite (filter_cons_False _ (userSegment tid tts action)) by done.
  by rewrite filter_nil, (right_id_L [] (++)).
Qed.

Lemma offeredChoices_narrative (log : list StorySegment) (tid tts : Z)
    (result : StoryResult) :
  offeredChoices (log ++ [newSegment tid tts result])
  = suggested_choices result.
Proof.
  unfold offeredChoices, lastNarrative. rewrite filter_app.
  rewrite (filter_cons_True _ (newSegment tid tts result)) by done.
  by rewrite filter_nil, last_snoc.
Qed.

Lemma step_choices (e : Event) (w : World) :
  currentChoices (app w) = offeredChoices (storyLog (app w)) →
  currentChoices (app (step e w)) = offeredChoices (storyLog (app (step e w))).
Proof.
  intros Hinv. step_cases e w; try done.
  - by rewrite offeredChoices_user.
  - by rewrite offeredChoices_narrative.
  - by rewrite offeredChoices_patch.
Qed.

(** X5. In every reachable world the choices on display are those of the
    most recent narrative segment of the log, and the choice of the first
    render ("Look around") while the log holds no narrative segment. *)
Theorem choices_follow_the_last_narrative_segment (events : list Event) :
  let st := app (run events) in
  currentChoices st = offeredChoices (storyLog st)
  ∧ (∀ seg, lastNarrative (storyLog st) = Some seg →
       currentChoices st = choices seg)
  ∧ (lastNarrative (storyLog st) = None →
       currentChoices st = ["Look around"]).
Proof.
  intros st.
  assert (currentChoices st = offeredChoices (storyLog st)) as Hinv.
  { subst st.
    apply (run_invariant
             (λ w, currentChoices (app w) = offeredChoices (storyLog (app w)))).
    - reflexivity.
    - apply step_choices. }
  split_and!; [done|..].
  - intros seg Hlast. rewrite Hinv. unfold offeredChoices. by rewrite Hlast.
  - intros Hlast. rewrite Hinv. unfold offeredChoices. by rewrite Hlast.
Qed.

(** ** The credential check and the screens *)

Lemma step_key_flags (e : Event) (w : World) :
  hasApiKey (app w) = true ∨ initializing (app w) = true →
  hasApiKey (app (step e w)) = true ∨ initializing (app (step e w)) = true.
Proof.
  intros Hinv. step_cases e w; try done; try (by left).
  by apply checkAndRequestApiKey_true in Hcheck.
Qed.

(** X6. The reload prompt is what the first render shows, and it is never
    shown again: from the start of the mount effect on, in every reachable
    world, the game screen is rendered, whatever the credential check
    answers and even when it throws. *)
Theorem reload_prompt_only_on_first_render :
  screen initialAppState = ReloadScreen
  ∧ ∀ events, screen (app (run events)) = GameScreen.
Proof.
  split; [reflexivity|]. intros events.
  assert (hasApiKey (app (run events)) = true
          ∨ initializing (app (run events)) = true) as Hflags.
  { apply (run_invariant (λ w, hasApiKey (app w) = true
                               ∨ initializing (app w) = true)).
    - by right.
    - apply step_key_flags. }
  unfold screen, showsReloadPrompt.
  destruct Hflags as [-> | ->]; [done|]. by rewrite andb_false_r.
Qed.

Lemma head_snoc {A} (l : list A) (x : A) :
  head (l ++ [x]) = Some (default x (head l)).
Proof. by destruct l. Qed.

Lemma step_opensWithInit (e : Event) (w : World) :
  opensWithInit (app w) → opensWithInit (app (step e w)).
Proof.
  unfold opensWithInit. intros Hinv. step_cases e w; try done.
  - rewrite head_snoc. destruct (head (storyLog (app w))) as [seg|]; [done|].
    simpl. rewrite Hinv. split; [|done]. intros Hid.
    by apply user_id_not_init in Hid.
  - by apply checkAndRequestApiKey_true in Hcheck.
  - rewrite head_snoc. destruct (head (storyLog (app w))) as [seg|]; [done|].
    simpl. rewrite Hinv. split; [|done]. intros Hid.
    by apply decimal_not_init in Hid.
  - unfold patchImageUrl. destruct (storyLog (app w)) as [|seg log]; [done|].
    simpl in *. by case_decide.
Qed.

(** X7. In every reachable world the story log starts with the segment
    "init" exactly when the credential check has succeeded; until then the
    log holds no segment or starts with a segment of a turn. *)
Theorem log_opens_with_init_iff_key_confirmed (events : list Event) :
  let st := app (run events) in
  hasApiKey st = true
  ↔ ∃ seg rest, storyLog st = seg :: rest ∧ id seg = "init".
Proof.
  intros st.
  assert (opensWithInit st) as Hinv.
  { subst st. apply (run_invariant (λ w, opensWithInit (app w))).
    - reflexivity.
    - apply step_opensWithInit. }
  unfold opensWithInit in Hinv.
  destruct (storyLog st) as [|seg rest]; simpl in Hinv.
  - rewrite Hinv. split; [done|]. by intros (? & ? & ? & _).
  - split.
    + intros Hkey. exists seg, rest. split; [done|]. by apply Hinv.
    + intros (seg' & rest' & [= <- <-] & Hid). by apply Hinv.
Qed.

(** ** Images go to narrative segments only *)

Lemma narrativeId_not_user (s : string) (t : Z) :
  narrativeId s → pretty t +:+ "-user" ≠ s.
Proof.
  intros [->|[t' ->]]; [apply user_id_not_init|apply user_id_not_decimal].
Qed.

Lemma patchImageUrl_userSegmentOk (segmentId url : string)
    (log : list StorySegment) :
  narrativeId segmentId →
  Forall userSegmentOk log →
  Forall userSegmentOk (patchImageUrl segmentId url log).
Proof.
  intros Hid Hlog. unfold patchImageUrl. apply Forall_fmap.
  eapply Forall_impl; [exact Hlog|]. intros seg Hseg. simpl.
  case_decide as Heq; [|done]. intros Huser.
  destruct (Hseg Huser) as [_ [t Ht]].
  destruct (narrativeId_not_user segmentId t Hid). congruence.
Qed.

Lemma finish_targets (cs : list Call) (i : nat) (started : list Call) :
  Forall imageCallTarget cs → Forall imageCallTarget started →
  Forall imageCallTarget (delete i cs ++ started).
Proof.
  intros Hcalls Hstarted.
  apply Forall_app. split; [by apply Forall_delete|done].
Qed.

Lemma step_user_segments (e : Event) (w : World) :
  Forall userSegmentOk (storyLog (app w)) ∧ Forall imageCallTarget (calls w) →
  Forall userSegmentOk (storyLog (app (step e w)))
  ∧ Forall imageCallTarget (calls (step e w)).
Proof.
  intros [Hlog Hcalls].
  step_cases e w; try done;
    try (split; [done|]; apply finish_targets; [done|by constructor]).
  - split; [done|]. by rewrite app_nil_r.
  - split.
    + apply Forall_app. split; [done|]. apply Forall_singleton.
      intros _. split; [done|]. by exists tid.
    + apply Forall_app. split; [done|]. by apply Forall_singleton.
  - split; [by apply Forall_singleton|].
    apply finish_targets; [done|]. apply Forall_singleton. by left.
  - split.
    + apply Forall_app. split; [done|]. by apply Forall_singleton.
    + apply finish_targets; [done|].
      destruct (Js.truthy (image_prompt r)); [|by constructor].
      apply Forall_singleton. right. by exists tid.
  - split; [|apply finish_targets; [done|by constructor]].
    apply patchImageUrl_userSegmentOk; [|done].
    by apply (Forall_lookup_1 _ _ _ _ Hcalls Hcall).
Qed.

(** X8. A player-action segment never receives an image: in every
    reachable world each segment flagged [isUser] has no [imageUrl] and an
    id ending in "-user", which no image call targets; it is rendered as a
    bubble with its text. *)
Theorem user_segments_never_get_an_image
    (events : list Event) (seg : StorySegment) :
  seg ∈ storyLog (app (run events)) →
  isUser seg = Some true →
  imageUrl seg = None
  ∧ (∃ t : Z, id seg = pretty t +:+ "-user")
  ∧ segmentView seg = UserBubble (text seg).
Proof.
  intros Hin Huser.
  assert (Forall userSegmentOk (storyLog (app (run events)))
          ∧ Forall imageCallTarget (calls (run events))) as [Hlog _].
  { apply (run_invariant
             (λ w, Forall userSegmentOk (storyLog (app w))
                   ∧ Forall imageCallTarget (calls w))).
    - split; [constructor|]. by apply Forall_singleton.
    - apply step_user_segments. }
  rewrite Forall_forall in Hlog.
  destruct (Hlog seg Hin) as [Himg Hid]; [by rewrite Huser|].
  split_and!; [done|done|]. unfold segmentView. by rewrite Huser.
Qed.

(** ** A whole turn *)

Lemma readStoryResult_normal (value : Js.Json) (result : StoryResult) :
  asStoryResult value = Some result →
  readStoryResult (Js.Normal value) = Js.Normal result.
Proof. unfold readStoryResult. by intros ->. Qed.

Lemma readStoryResult_throw (e : string) :
  readStoryResult (Js.Throw e) = Js.Throw e.
Proof. reflexivity. Qed.

Lemma filter_delete {A} (P : A → Prop) `{!∀ x, Decision (P x)}
    (l : list A) (i : nat) (c : A) :
  l !! i = Some c → ¬ P c → filter P (delete i l) = filter P l.
Proof.
  intros Hi Hc. rewrite delete_take_drop.
  rewrite <-(take_drop_middle l i c Hi) at 3.
  by rewrite !filter_app, filter_cons_False.
Qed.

Lemma submit_when_idle (w : World) (tid tts : Z) (action : string) :
  loading (app w) = false →
  step (Submit tid tts action) w
  = {| app := setStoryLog (λ prev, prev ++ [userSegment tid tts action])
                (setLoading true (app w));
       calls := calls w ++ [submittedCall w action] |}.
Proof. intros Hl. unfold step, handleAction. by rewrite Hl. Qed.

Lemma turn_starts (w : World) (tid tts : Z) (action : string) :
  loading (app w) = false → storyCallsInFlight w = 0%nat →
  turnInProgress w tid tts action (step (Submit tid tts action) w).
Proof.
  intros Hl Hnone. rewrite submit_when_idle by done.
  unfold turnInProgress. simpl. split_and!; try done.
  rewrite filter_app. unfold storyCallsInFlight in Hnone.
  apply nil_length_inv in Hnone. by rewrite Hnone.
Qed.

Lemma turn_survives (w : World) (tid tts : Z) (action : string)
    (e : Event) (v : World) :
  isInterlude e = true →
  turnInProgress w tid tts action v →
  turnInProgress w tid tts action (step e v).
Proof.
  unfold turnInProgress. intros He (Hl & Hgs & Hch & Hlog & Hcalls).
  destruct e as [tid' tts' a|i h now|i h tid' tts'|i h|s| |sz]; try done;
    simpl; try done.
  - unfold handleAction. rewrite Hl. simpl. by rewrite app_nil_r.
  - destruct (calls v !! i) as [[sz|? ? ? ? ?|sid p sz]|] eqn:Hcall;
      try done.
    simpl. rewrite app_nil_r.
    rewrite (filter_delete _ (calls v) i _ Hcall) by done.
    unfold generateImageForSegment_resume.
    destruct (generateSceneImage h p sz) as [[u|]|]; try done.
    simpl. destruct (Js.truthy u); [|done]. simpl.
    split_and!; try done. rewrite <-Hlog.
    unfold patchImageUrl. rewrite <-list_fmap_compose.
    apply list_fmap_ext. intros k seg _. simpl. unfold sameButImage.
    by case_decide.
Qed.

Lemma turn_survives_interlude (w : World) (tid tts : Z) (action : string)
    (between : list Event) :
  Forall (λ e, isInterlude e = true) between →
  ∀ v, turnInProgress w tid tts action v →
       turnInProgress w tid tts action (foldl (λ v e, step e v) v between).
Proof.
  induction 1 as [|e between He _ IH]; intros v Hv; [done|].
  simpl. by apply IH, turn_survives.
Qed.

(** The outstanding narrative call of a turn in progress is the one its
    submission started, and its completion runs the continuation of
    [handleAction] on the values captured then. *)
Lemma turn_completes (w : World) (tid tts : Z) (action : string)
    (v : World) (i : nat) (c : Call) (host : Host) (tid' tts' : Z) :
  turnInProgress w tid tts action v →
  calls v !! i = Some c → isStoryCall c = true →
  c = submittedCall w action
  ∧ step (StoryResolves i host tid' tts') v
    = finish v i
        (handleAction_resume
           (readStoryResult
              (generateStorySegment host (historyText (storyLog (app w)))
                 action (inventory (gameState (app w)))
                 (currentQuest (gameState (app w)))))
           tid' tts' (imageResolution (app w)) (app v)).
Proof.
  intros (_ & _ & _ & _ & Hcalls) Hi Hc.
  assert (c = submittedCall w action) as ->.
  { assert (c ∈ filter (λ c, isStoryCall c = true) (calls v)) as Hin.
    { apply list_elem_of_filter. split; [done|].
      by apply list_elem_of_lookup_2 in Hi. }
    rewrite Hcalls in Hin. by apply list_elem_of_singleton in Hin. }
  split; [done|]. unfold step. rewrite Hi. done.
Qed.

(** X9. A turn started while no narrative call is outstanding, from its
    submission to the completion of its narrative call, with any player
    input and image completions in between (but not the completion of the
    credential check): when the call returns a value shaped like the
    schema, the log is, up to images, the old log followed by exactly two
    segments, the player's action and then the narrative; the delta is
    applied to the game state, the suggested choices are shown, [loading]
    and the text input are cleared, and one image call is started for the
    new segment when its image prompt is not empty, none otherwise. When
    the call raises, nothing is appended and [loading] stays set with no
    narrative call outstanding. *)
Theorem turn_appends_action_then_narrative
    (w : World) (host : Host) (tid1 tts1 tid2 tts2 : Z) (action : string)
    (between : list Event) (i : nat) (c : Call) :
  loading (app w) = false →
  storyCallsInFlight w = 0%nat →
  Forall (λ e, isInterlude e = true) between →
  let w1 := step (Submit tid1 tts1 action) w in
  let w2 := foldl (λ v e, step e v) w1 between in
  let w3 := step (StoryResolves i host tid2 tts2) w2 in
  let call :=
    generateStorySegment host (historyText (storyLog (app w))) action
      (inventory (gameState (app w))) (currentQuest (gameState (app w))) in
  calls w2 !! i = Some c → isStoryCall c = true →
  (∀ value r,
     call = Js.Normal value → asStoryResult value = Some r →
     sameButImage <$> storyLog (app w3)
     = sameButImage
         <$> (storyLog (app w)
              ++ [userSegment tid1 tts1 action; newSegment tid2 tts2 r])
     ∧ gameState (app w3) = updateGameState r (gameState (app w))
     ∧ currentChoices (app w3) = suggested_choices r
     ∧ loading (app w3) = false
     ∧ customInput (app w3) = ""
     ∧ calls w3
       = delete i (calls w2)
         ++ (if Js.truthy (image_prompt r)
             then [ImageCall (pretty tid2) (image_prompt r)
                     (imageResolution (app w))]
             else []))
  ∧ (∀ e, call = Js.Throw e →
       app w3 = app w2
       ∧ loading (app w3) = true
       ∧ sameButImage <$> storyLog (app w3)
         = sameButImage
             <$> (storyLog (app w) ++ [userSegment tid1 tts1 action])
       ∧ storyCallsInFlight w3 = 0%nat).
Proof.
  intros Hl Hnone Hbetween w1 w2 w3 call Hi Hc.
  assert (turnInProgress w tid1 tts1 action w2) as Hturn.
  { apply turn_survives_interlude; [done|]. by apply turn_starts. }
  destruct (turn_completes w tid1 tts1 action w2 i c host tid2 tts2
              Hturn Hi Hc) as [-> Hstep].
  destruct Hturn as (Hl2 & Hgs & Hch & Hlog & Hcalls).
  subst w3. rewrite Hstep. fold call. split.
  - intros value r -> Hr. rewrite (readStoryResult_normal value r Hr).
    simpl. rewrite fmap_app, Hlog, Hgs, !fmap_app, <-(assoc_L (++)).
    by split_and!.
  - intros e ->. rewrite readStoryResult_throw. simpl.
    split_and!; try done.
    rewrite (inflight_finish _ _ _ _ _ Hi). unfold storyCallsInFlight.
    rewrite Hcalls. done.
Qed.

(** X10. The resolution of a turn's image is the one selected when the
    action was submitted: a resolution selected while the narrative call is
    outstanding becomes the stored resolution, and the image call that the
    turn starts still carries the resolution of the submission. *)
Theorem image_resolution_is_fixed_at_submission
    (w : World) (host : Host) (tid1 tts1 tid2 tts2 : Z) (action : string)
    (earlier : list Event) (size' : ImageSize) (i : nat) (c : Call)
    (value : Js.Json) (r : StoryResult) :
  loading (app w) = false →
  storyCallsInFlight w = 0%nat →
  Forall (λ e, isInterlude e = true) earlier →
  let w1 := step (Submit tid1 tts1 action) w in
  let w2 := foldl (λ v e, step e v) w1 (earlier ++ [SelectResolution size']) in
  let w3 := step (StoryResolves i host tid2 tts2) w2 in
  calls w2 !! i = Some c → isStoryCall c = true →
  generateStorySegment host (historyText (storyLog (app w))) action
    (inventory (gameState (app w))) (currentQuest (gameState (app w)))
  = Js.Normal value →
  asStoryResult value = Some r →
  imageResolution (app w3) = size'
  ∧ calls w3
    = delete i (calls w2)
      ++ (if Js.truthy (image_prompt r)
          then [ImageCall (pretty tid2) (image_prompt r)
                  (imageResolution (app w))]
          else []).
Proof.
  intros Hl Hnone Hearlier w1 w2 w3 Hi Hc Hcall Hr.
  assert (turnInProgress w tid1 tts1 action w2) as Hturn.
  { apply turn_survives_interlude; [|by apply turn_starts].
    apply Forall_app. split; [done|]. by apply Forall_singleton. }
  destruct (turn_completes w tid1 tts1 action w2 i c host tid2 tts2
              Hturn Hi Hc) as [-> Hstep].
  subst w3. rewrite Hstep, Hcall, (readStoryResult_normal value r Hr).
  simpl. split; [|done].
  subst w2. by rewrite foldl_app.
Qed.

(** ** Controls *)

(** X11. While the narrative call of a turn is outstanding every control
    is disabled and every submission handler does nothing. When the call
    returns a value shaped like the schema the choices are enabled again
    and the text input is empty, so the send button stays disabled and the
    Enter key submits nothing until the player types. When the call raises
    the controls stay disabled and the handlers keep doing nothing. *)
Theorem controls_during_and_after_a_turn
    (w : World) (host : Host) (tid1 tts1 tid2 tts2 : Z) (action : string)
    (between : list Event) (i : nat) (c : Call) :
  loading (app w) = false →
  storyCallsInFlight w = 0%nat →
  Forall (λ e, isInterlude e = true) between →
  let w1 := step (Submit tid1 tts1 action) w in
  let w2 := foldl (λ v e, step e v) w1 between in
  let w3 := step (StoryResolves i host tid2 tts2) w2 in
  let call :=
    generateStorySegment host (historyText (storyLog (app w))) action
      (inventory (gameState (app w))) (currentQuest (gameState (app w))) in
  calls w2 !! i = Some c → isStoryCall c = true →
  (choiceDisabled (app w2) = true ∧ sendDisabled (app w2) = true
   ∧ ∀ t t' choice,
       onChoiceClick t t' choice (app w2) = (app w2, [])
       ∧ onSend t t' (app w2) = (app w2, []))
  ∧ (∀ value r,
       call = Js.Normal value → asStoryResult value = Some r →
       choiceDisabled (app w3) = false ∧ sendDisabled (app w3) = true
       ∧ ∀ t t', onSend t t' (app w3) = (app w3, []))
  ∧ (∀ e, call = Js.Throw e →
       choiceDisabled (app w3) = true ∧ sendDisabled (app w3) = true
       ∧ ∀ t t' choice,
           onChoiceClick t t' choice (app w3) = (app w3, [])
           ∧ onSend t t' (app w3) = (app w3, [])).
Proof.
  intros Hl Hnone Hbetween w1 w2 w3 call Hi Hc.
  assert (turnInProgress w tid1 tts1 action w2) as Hturn.
  { apply turn_survives_interlude; [done|]. by apply turn_starts. }
  destruct (turn_completes w tid1 tts1 action w2 i c host tid2 tts2
              Hturn Hi Hc) as [-> Hstep].
  destruct Hturn as (Hl2 & _).
  assert (∀ st, loading st = true →
            choiceDisabled st = true ∧ sendDisabled st = true
            ∧ ∀ t t' choice,
                onChoiceClick t t' choice st = (st, [])
                ∧ onSend t t' st = (st, [])) as Hbusy.
  { intros st Hst. unfold choiceDisabled, sendDisabled, onChoiceClick,
      onSend, handleAction. rewrite Hst. split_and!; try done.
    intros _ _ _. by destruct (Js.truthy (customInput st)). }
  split_and!.
  - by apply Hbusy.
  - by apply Hbusy.
  - by apply Hbusy.
  - intros value r Hcall Hr. subst w3. rewrite Hstep. fold call.
    rewrite Hcall, (readStoryResult_normal value r Hr). simpl. done.
  - intros e Hcall. subst w3. rewrite Hstep. fold call.
    rewrite Hcall, readStoryResult_throw. simpl. by apply Hbusy.
Qed.

(** ** Narrative call: what is returned, what is sent *)

(** X12. What [generateStorySegment] returns is either the fallback or
    exactly the value parsed from the text of the response, unchanged and
    unvalidated; it is the parsed value whenever the request resolves with
    a non-empty text that parses. *)
Theorem story_result_is_parsed_or_fallback
    (host : Host) (history : list string) (userAction : string)
    (inv : list string) (quest : string) :
  let request := storyRequest host history userAction inv quest in
  let call := generateStorySegment host history userAction inv quest in
  (∀ ai response t value,
     getClient host = Js.Normal ai →
     GenAI.generateContent ai request = Js.Normal response →
     GenAI.text response = Some t → t ≠ "" →
     JSON_parse host t = Js.Normal value →
     call = Js.Normal value)
  ∧ (∀ value, call = Js.Normal value →
       value = storyFallbackValue
       ∨ ∃ ai response t,
           getClient host = Js.Normal ai
           ∧ GenAI.generateContent ai request = Js.Normal response
           ∧ GenAI.text response = Some t ∧ t ≠ ""
           ∧ JSON_parse host t = Js.Normal value).
Proof.
  intros request call. subst request call.
  unfold generateStorySegment, storyAttempt, Js.try_catch, Js.bind. split.
  - intros ai response t value -> -> Ht Hne Hparse. rewrite Ht. simpl.
    unfold Js.truthy. rewrite bool_decide_true by done. simpl.
    by rewrite Hparse.
  - intros value. destruct (getClient host) as [ai|e]; [|done].
    destruct (GenAI.generateContent _ _) as [response|e] eqn:Hresp;
      [|intros [= <-]; by left].
    destruct (GenAI.text response) as [t|] eqn:Ht; simpl;
      [|intros [= <-]; by left].
    unfold Js.truthy. case_bool_decide as Hne; simpl;
      [|intros [= <-]; by left].
    destruct (JSON_parse host t) as [value'|e] eqn:Hparse;
      [|intros [= <-]; by left].
    intros [= <-]. right. by exists ai, response, t.
Qed.

Lemma slice_last_app {A} (n : nat) (older recent : list A) :
  (n ≤ length recent)%nat →
  Js.slice_last n (older ++ recent) = Js.slice_last n recent.
Proof.
  intros Hn. unfold Js.slice_last. rewrite length_app.
  rewrite drop_app_ge by lia. f_equal. lia.
Qed.

(** X13. Only the last six entries of the history reach the backend: a
    history that ends with six or more entries gives the same request, and
    so the same result, as those entries alone. *)
Theorem older_history_is_not_sent
    (host : Host) (older recent : list string) (userAction : string)
    (inv : list string) (quest : string) :
  (6 ≤ length recent)%nat →
  storyRequest host (older ++ recent) userAction inv quest
  = storyRequest host (Js.slice_last 6 recent) userAction inv quest
  ∧ generateStorySegment host (older ++ recent) userAction inv quest
    = generateStorySegment host (Js.slice_last 6 recent) userAction inv quest.
Proof.
  intros Hlen.
  assert (storyContext (older ++ recent)
          = storyContext (Js.slice_last 6 recent)) as Hctx.
  { unfold storyContext. rewrite slice_last_app by done.
    rewrite (slice_last_all 6 (Js.slice_last 6 recent)); [done|].
    rewrite slice_last_length. lia. }
  assert (storyRequest host (older ++ recent) userAction inv quest
          = storyRequest host (Js.slice_last 6 recent) userAction inv quest)
    as Hreq.
  { unfold storyRequest, storyPrompt. by rewrite Hctx. }
  split; [done|]. unfold generateStorySegment. by rewrite Hreq.
Qed.

(** ** Scene image: the parts that are read *)

(** X14. [generateSceneImage] reads the parts of the first candidate only:
    it returns null when the response has no candidate list, an empty one,
    or a first candidate without content or parts, and an image in a later
    candidate is not used. *)
Theorem only_the_first_candidate_is_read
    (host : Host) (ai : GenAI.GoogleGenAI) (prompt : string)
    (size : ImageSize) (response : GenAI.GenerateContentResponse) :
  getClient host = Js.Normal ai →
  GenAI.generateContent ai (imageRequest prompt size) = Js.Normal response →
  let call := generateSceneImage host prompt size in
  (GenAI.candidates response = None → call = Js.Normal None)
  ∧ (GenAI.candidates response = Some [] → call = Js.Normal None)
  ∧ (∀ first rest,
       GenAI.candidates response = Some (first :: rest) →
       (GenAI.content first = None → call = Js.Normal None)
       ∧ (∀ ct, GenAI.content first = Some ct →
            (GenAI.parts ct = None → call = Js.Normal None)
            ∧ (∀ ps, GenAI.parts ct = Some ps →
                 call = Js.Normal (firstInlineImage ps)
                 ∧ (Forall noInlineData ps → call = Js.Normal None)))).
Proof.
  intros Hclient Hresp call. subst call.
  rewrite (generateSceneImage_client host ai prompt size Hclient), Hresp.
  unfold responseParts. split_and!.
  - by intros ->.
  - by intros ->.
  - intros first rest ->. simpl. split; [by intros ->|].
    intros ct ->. simpl. split; [by intros ->|].
    intros ps ->. simpl. split; [done|].
    intros Hnone. by rewrite firstInlineImage_none.
Qed.

(** ** What the [try] blocks absorb *)

(** X21. [generateStorySegment] raises exactly when the constructor of the
    client does, and the turn then stops at its [await] with the state as
    it is. Once the handle is obtained the call returns, and whenever the
    attempt inside the [try] block fails (the request is rejected, the
    response has no text or an empty one, the text does not parse) it
    returns the fixed fallback object; the turn resumed with it adds the
    fallback segment, offers "Try again" alone, clears [loading], and keeps
    the game state of a duplicate-free inventory. *)
Theorem story_failures_inside_try_give_the_fallback
    (host : Host) (history : list string) (userAction : string)
    (inv : list string) (quest : string) :
  let request := storyRequest host history userAction inv quest in
  let call := generateStorySegment host history userAction inv quest in
  (∀ e, getClient host = Js.Throw e →
     call = Js.Throw e
     ∧ ∀ tid tts size st,
         handleAction_resume (readStoryResult call) tid tts size st = (st, []))
  ∧ (∀ ai, getClient host = Js.Normal ai →
       (∃ value, call = Js.Normal value)
       ∧ (storyAttemptFails host ai request →
          call = Js.Normal storyFallbackValue
          ∧ readStoryResult call = Js.Normal storyFallback
          ∧ ∀ tid tts size st,
              NoDup (inventory (gameState st)) →
              let st' :=
                (handleAction_resume (readStoryResult call) tid tts size st).1 in
              gameState st' = gameState st
              ∧ storyLog st' = storyLog st ++ [newSegment tid tts storyFallback]
              ∧ currentChoices st' = ["Try again"]
              ∧ loading st' = false)).
Proof.
  intros request call. subst request call. split.
  - intros e Hclient.
    rewrite (generateStorySegment_throws host history userAction inv quest e
               Hclient).
    split; [done|]. intros tid tts size st. by rewrite readStoryResult_throw.
  - intros ai Hclient. split.
    + by apply (generateStorySegment_returns host ai).
    + intros Hfails.
      rewrite (generateStorySegment_fallback host ai history userAction inv
                 quest Hclient Hfails).
      rewrite (readStoryResult_normal _ _ asStoryResult_fallback).
      split_and!; [done|done|].
      intros tid tts size st Hnd. by apply fallback_turn.
Qed.

(** X22. [generateSceneImage] raises exactly when the constructor of the
    client does, and [generateImageForSegment] then leaves the state as it
    is. Once the handle is obtained the call returns: null when the request
    is rejected, and, when the first candidate of the response has parts of
    which one carries inline data, the data URI ["data:" + mimeType +
    ";base64," + data] of the first such part, which is then patched onto
    the segment. A null result leaves the state as it is. *)
Theorem scene_image_failures_inside_try_give_null
    (host : Host) (prompt : string) (size : ImageSize) :
  let request := imageRequest prompt size in
  let call := generateSceneImage host prompt size in
  (∀ e, getClient host = Js.Throw e →
     call = Js.Throw e
     ∧ ∀ segmentId st, generateImageForSegment_resume segmentId call st = st)
  ∧ (∀ ai, getClient host = Js.Normal ai →
       (∃ result, call = Js.Normal result)
       ∧ (∀ e, GenAI.generateContent ai request = Js.Throw e →
            call = Js.Normal None)
       ∧ (∀ response first rest ct before part d after,
            GenAI.generateContent ai request = Js.Normal response →
            GenAI.candidates response = Some (first :: rest) →
            GenAI.content first = Some ct →
            GenAI.parts ct = Some (before ++ part :: after) →
            Forall noInlineData before →
            GenAI.inlineData part = Some d →
            let url := "data:" +:+ GenAI.mimeType d +:+ ";base64,"
                       +:+ GenAI.data d in
            call = Js.Normal (Some url)
            ∧ ∀ segmentId st,
                generateImageForSegment_resume segmentId call st
                = setStoryLog (patchImageUrl segmentId url) st))
  ∧ (call = Js.Normal None →
     ∀ segmentId st, generateImageForSegment_resume segmentId call st = st).
Proof.
  intros request call. subst request call. split_and!.
  - intros e Hclient.
    rewrite (generateSceneImage_throws host prompt size e Hclient).
    by split.
  - intros ai Hclient.
    rewrite (generateSceneImage_client host ai prompt size Hclient).
    split_and!.
    + destruct (GenAI.generateContent _ _); eauto.
    + by intros e ->.
    + intros response first rest ct before part d after -> Hc Hct Hps Hb Hd.
      unfold responseParts. rewrite Hc. simpl. rewrite Hct. simpl.
      rewrite Hps. simpl.
      rewrite (firstInlineImage_first before after part d Hb Hd).
      split; [done|]. intros segmentId st.
      unfold generateImageForSegment_resume, Js.truthy_opt.
      by rewrite dataUri_truthy.
  - by intros ->.
Qed.

(** ** Chat assistant *)

(** X15. [sendChatMessage] obtains the client handle before its [try]
    block: when the constructor throws, [sendChatMessage] raises. Once the
    handle is obtained it absorbs every failure of the chat: when creating
    the chat or sending the message throws, the reply is the fixed in-world
    error line; when both succeed the reply is the text of the response as
    it is, absent when the response carries none. The transcript handed to
    the backend is the given one, unchanged and in order. *)
Theorem chat_absorbs_failure
    (host : Host) (history : list GenAI.Chats.Turn) (message : string)
    (gameState : GameState) :
  let parameters := chatParameters history (chatInstruction gameState) in
  let reply := sendChatMessage host history message gameState in
  GenAI.Chats.history parameters = history
  ∧ (∀ e, getClient host = Js.Throw e → reply = Js.Throw e)
  ∧ (∀ ai, getClient host = Js.Normal ai →
       (∃ r, reply = Js.Normal r)
       ∧ (∀ e, GenAI.Chats.create (GenAI.chats ai) parameters = Js.Throw e →
            reply = Js.Normal (Some chatError))
       ∧ (∀ chat,
            GenAI.Chats.create (GenAI.chats ai) parameters = Js.Normal chat →
            (∀ e, GenAI.Chats.sendMessage chat message = Js.Throw e →
               reply = Js.Normal (Some chatError))
            ∧ (∀ response,
                 GenAI.Chats.sendMessage chat message = Js.Normal response →
                 reply = Js.Normal (GenAI.text response)))).
Proof.
  intros parameters reply. subst parameters reply.
  unfold sendChatMessage, chatAttempt, Js.try_catch, Js.bind. split_and!.
  - simpl. rewrite <-(list_fmap_id history) at 2.
    apply list_fmap_ext. intros i [rl ps] _. done.
  - by intros e ->.
  - intros ai ->. split_and!.
    + destruct (GenAI.Chats.create _ _) as [chat|e]; [|eauto].
      destruct (GenAI.Chats.sendMessage chat message); eauto.
    + by intros e ->.
    + intros chat ->. split.
      * by intros e ->.
      * by intros response ->.
Qed.

(** ** Inventory merge: order, and applying a delta twice *)

Lemma filter_all {A} (P : A → Prop) `{!∀ x, Decision (P x)} (l : list A) :
  Forall P l → filter P l = l.
Proof.
  induction 1 as [|x l Hx _ IH]; [done|].
  by rewrite filter_cons_True, IH.
Qed.

Lemma filter_none {A} (P : A → Prop) `{!∀ x, Decision (P x)} (l : list A) :
  Forall (λ x, ¬ P x) l → filter P l = [].
Proof.
  induction 1 as [|x l Hx _ IH]; [done|].
  by rewrite filter_cons_False, IH.
Qed.

Lemma delete_each_filter (l : list string) :
  ∀ s, Js.StringSet.delete_each l s = filter (λ x, x ∉ l) s.
Proof.
  unfold Js.StringSet.delete_each.
  induction l as [|x l IH]; intros s; simpl.
  - symmetry. apply filter_all, Forall_forall. intros y _. apply not_elem_of_nil.
  - rewrite IH. unfold Js.StringSet.delete. rewrite list_filter_filter.
    apply list_filter_iff. intros y. rewrite not_elem_of_cons. naive_solver.
Qed.

(** Adding to a set appends the values that are new, after the values it
    holds. *)
Lemma add_each_appends (l : list string) :
  ∀ s, ∃ news, Js.StringSet.add_each l s = s ++ news
               ∧ ∀ x, x ∈ news → x ∈ l ∧ x ∉ s.
Proof.
  unfold Js.StringSet.add_each.
  induction l as [|x l IH]; intros s; simpl.
  - exists []. rewrite (right_id_L [] (++)). split; [done|].
    intros y Hy. by apply elem_of_nil in Hy.
  - unfold Js.StringSet.add at 2. case_decide as Hx.
    + destruct (IH s) as (news & -> & Hnews). exists news. split; [done|].
      intros y Hy. destruct (Hnews y Hy). split; [by right|done].
    + destruct (IH (s ++ [x])) as (news & -> & Hnews).
      exists (x :: news). rewrite <-(assoc_L (++)). split; [done|].
      intros y [->|Hy]%elem_of_cons; [split; [by left|done]|].
      destruct (Hnews y Hy) as [Hl Hs]. split; [by right|].
      intros Hin. apply Hs, elem_of_app. by left.
Qed.

Lemma mergeInventory_shape (result : StoryResult) (prev : list string) :
  ∃ news,
    mergeInventory result prev
    = filter (λ x, x ∉ inventory_remove result) (Js.StringSet.of_array prev)
      ++ news
    ∧ ∀ x, x ∈ news →
           x ∈ inventory_add result ∧ (x ∉ prev)
           ∧ (x ∉ inventory_remove result).
Proof.
  unfold mergeInventory, Js.StringSet.to_array. rewrite delete_each_filter.
  destruct (add_each_appends (inventory_add result)
              (Js.StringSet.of_array prev)) as (news & -> & Hnews).
  exists (filter (λ x, x ∉ inventory_remove result) news).
  rewrite filter_app. split; [done|].
  intros x [Hrem Hx]%list_elem_of_filter. destruct (Hnews x Hx) as [Hadd Hold].
  split_and!; [done| |done]. by rewrite <-elem_of_of_array.
Qed.

(** X16. The merge keeps the display order: for a duplicate-free inventory
    the items that survive the delta stay first, in their old order, and
    the items that are new follow them; each new item is in the add list,
    was not in the inventory and is not in the remove list. *)
Theorem merge_keeps_old_items_first
    (result : StoryResult) (prev : list string) :
  NoDup prev →
  ∃ news,
    mergeInventory result prev
    = filter (λ x, x ∉ inventory_remove result) prev ++ news
    ∧ NoDup news
    ∧ ∀ x, x ∈ news →
           x ∈ inventory_add result ∧ (x ∉ prev)
           ∧ (x ∉ inventory_remove result).
Proof.
  intros Hnd. destruct (mergeInventory_shape result prev)
    as (news & Hshape & Hnews).
  rewrite of_array_NoDup in Hshape by done.
  exists news. split_and!; [done| |done].
  pose proof (NoDup_mergeInventory result prev) as Hres.
  rewrite Hshape in Hres. by apply NoDup_app in Hres as (_ & _ & ?).
Qed.

Lemma mergeInventory_twice (result : StoryResult) (prev : list string) :
  mergeInventory result (mergeInventory result prev)
  = mergeInventory result prev.
Proof.
  set (merged := mergeInventory result prev).
  destruct (mergeInventory_shape result merged) as (news & -> & Hnews).
  rewrite of_array_NoDup by apply NoDup_mergeInventory.
  assert (news = []) as ->.
  { destruct news as [|x news]; [done|].
    destruct (Hnews x) as (Hadd & Hold & Hrem); [left|].
    destruct Hold. apply elem_of_mergeInventory. split; [by right|done]. }
  rewrite (right_id_L [] (++)). apply filter_all, Forall_forall.
  intros x Hx. by apply elem_of_mergeInventory in Hx as [_ ?].
Qed.

Lemma or_else_twice (a : option string) (b : string) :
  Js.or_else a (Js.or_else a b) = Js.or_else a b.
Proof.
  destruct (or_else_cases a b) as [(q & -> & Hq & ->)|[[->| ->] ->]];
    [by apply or_else_truthy|done|done].
Qed.

(** X17. Applying a delta twice is applying it once: the second
    application changes neither the inventory, order included, nor the
    quest, nor anything else of the game state. *)
Theorem delta_applied_twice_is_applied_once
    (result : StoryResult) (prev : GameState) :
  updateGameState result (updateGameState result prev)
  = updateGameState result prev.
Proof.
  unfold updateGameState. simpl.
  by rewrite mergeInventory_twice, or_else_twice.
Qed.

(** ** The image slot of a segment *)

(** X18. The placeholder of a narrative segment matches the image call of
    its turn: a segment created with a non-empty image prompt shows the
    placeholder and has an image call started for it; one created with an
    empty prompt shows nothing and has none. The initial segment carries no
    prompt, so it shows no placeholder although its image call is started.
    A segment patched with an image shows that image. *)
Theorem placeholder_matches_image_call
    (result : StoryResult) (tid tts now : Z) (size : ImageSize)
    (st : AppState) :
  let seg := newSegment tid tts result in
  let started := (handleAction_resume (Js.Normal result) tid tts size st).2 in
  ((image_prompt result ≠ ""
    ∧ imageView seg = Visualizing
    ∧ started = [ImageCall (id seg) (image_prompt result) size])
   ∨ (image_prompt result = ""
      ∧ imageView seg = NoImage
      ∧ started = []))
  ∧ (imageView (initialSegment now) = NoImage
     ∧ ∃ prompt,
         (init_resume (Js.Normal true) now size st).2
         = [ImageCall "init" prompt size])
  ∧ (∀ url segment, url ≠ "" →
       imageView (withImageUrl url segment) = Picture url).
Proof.
  intros seg started. subst seg started. split_and!.
  - unfold imageView. simpl. unfold Js.truthy.
    case_bool_decide as Hp.
    + left. split; [exact Hp|]. split; reflexivity.
    + right. split; [|split; reflexivity].
      destruct (decide (image_prompt result = "")); [done|contradiction].
  - done.
  - by eexists.
  - intros url segment Hurl. unfold imageView. simpl. unfold Js.truthy.
    by rewrite bool_decide_true.
Qed.

(** ** The log once the game has started *)

Lemma keyChecks_finish (w : World) (i : nat) (c : Call) (st : AppState)
    (started : list Call) :
  calls w !! i = Some c →
  keyChecksInFlight (finish w i (st, started))
  = (keyChecksInFlight w - (if isKeyCheck c then 1 else 0)
     + length (filter (λ c, isKeyCheck c = true) started))%nat.
Proof.
  intros Hi. unfold keyChecksInFlight, finish. simpl.
  rewrite filter_app, length_app.
  rewrite (filter_length_delete _ (calls w) i c Hi).
  destruct (isKeyCheck c); [rewrite decide_True by done|
                            rewrite decide_False by done]; lia.
Qed.

Lemma step_keyChecks (e : Event) (w : World) :
  (keyChecksInFlight w ≤ 1)%nat
  ∧ (hasApiKey (app w) = true → keyChecksInFlight w = 0%nat) →
  (keyChecksInFlight (step e w) ≤ 1)%nat
  ∧ (hasApiKey (app (step e w)) = true → keyChecksInFlight (step e w) = 0%nat).
Proof.
  intros [Hle Hkey].
  step_cases e w; try done;
    try (rewrite (keyChecks_finish _ _ _ _ _ Hcall); simpl;
         try destruct (Js.truthy (image_prompt r));
         try unfold generateImageForSegment; simpl;
         (split; [lia|intros Hk; try specialize (Hkey Hk); lia])).
  - unfold keyChecksInFlight in *. simpl. by rewrite app_nil_r.
  - unfold keyChecksInFlight in *. simpl.
    rewrite filter_app, length_app. simpl.
    split; [lia|intros Hk; specialize (Hkey Hk); lia].
Qed.

Lemma reachable_keyChecks (events : list Event) :
  hasApiKey (app (run events)) = true → keyChecksInFlight (run events) = 0%nat.
Proof.
  apply (run_invariant
           (λ w, (keyChecksInFlight w ≤ 1)%nat
                 ∧ (hasApiKey (app w) = true → keyChecksInFlight w = 0%nat))).
  - split; [done|]. done.
  - apply step_keyChecks.
Qed.

(** X19. The initial segment replaces whatever the log holds: when the
    credential check completes, the log is the initial segment alone and
    the choices are its choices, so an action submitted before that is
    dropped from the log, while its narrative call stays outstanding and
    the game state is untouched. *)
Theorem initial_segment_replaces_the_log
    (w : World) (i : nat) (host : Host) (now : Z) (size : ImageSize)
    (keySelected : bool) :
  calls w !! i = Some (KeyCheck size) →
  checkAndRequestApiKey host = Js.Normal keySelected →
  let w' := step (KeyCheckResolves i host now) w in
  storyLog (app w') = [initialSegment now]
  ∧ currentChoices (app w')
    = ["Search the room"; "Call out for help"; "Examine yourself"]
  ∧ hasApiKey (app w') = true
  ∧ loading (app w') = loading (app w)
  ∧ gameState (app w') = gameState (app w)
  ∧ storyCallsInFlight w' = storyCallsInFlight w.
Proof.
  intros Hcall Hcheck w'. subst w'.
  pose proof (checkAndRequestApiKey_true host keySelected Hcheck) as ->.
  unfold step. rewrite Hcall, Hcheck. simpl (init_resume _ _ _ _).
  rewrite (inflight_finish _ _ _ _ _ Hcall). simpl. split_and!; try done. lia.
Qed.

(** X20. Once the credential check has succeeded the log is append-only:
    in a reachable world with [hasApiKey] set, no event removes, reorders
    or rewrites a segment; at most the [imageUrl] of segments changes, and
    segments are added at the end. *)
Theorem log_is_append_only_once_started (events : list Event) (e : Event) :
  hasApiKey (app (run events)) = true →
  let sameButImage seg :=
    (id seg, text seg, imagePrompt seg, choices seg, isUser seg,
     timestamp seg) in
  sameButImage <$> storyLog (app (run events))
  `prefix_of` sameButImage <$> storyLog (app (step e (run events))).
Proof.
  intros Hkey sameButImage.
  pose proof (reachable_keyChecks events Hkey) as Hnone.
  set (w := run events) in *.
  step_cases e w; try done; try (by rewrite fmap_app; apply prefix_app_r).
  - exfalso. unfold keyChecksInFlight in Hnone.
    rewrite (filter_length_delete _ (calls w) i _ Hcall) in Hnone.
    rewrite decide_True in Hnone by done. lia.
  - unfold patchImageUrl. rewrite <-list_fmap_compose.
    erewrite list_fmap_ext; [done|]. intros k seg _. simpl.
    unfold sameButImage. by case_decide.
Qed.

(** ** The further properties on sample runs *)

Lemma sidebar_items_witness :
  ["rusty key"] = inventory (gameState (app (run rustyKeyRun)))
  ∧ ["rusty key"] ≠ []
  ∧ NoDup ["rusty key"].
Proof.
  destruct (sidebar_lists_each_item_once rustyKeyRun) as (_ & _ & Hitems).
  apply (Hitems ["rusty key"]). reflexivity.
Defined.

Lemma choices_witness :
  currentChoices (app (run rustyKeyRun)) = ["Use key"; "Leave"]
  ∧ currentChoices (app (run earlySubmitRun)) = ["Look around"].
Proof.
  split.
  - destruct (choices_follow_the_last_narrative_segment rustyKeyRun)
      as (_ & Hsome & _).
    apply (Hsome (newSegment 1700000001500 1700000001500 rustyKeyDelta)).
    reflexivity.
  - destruct (choices_follow_the_last_narrative_segment earlySubmitRun)
      as (_ & _ & Hnone).
    apply Hnone. reflexivity.
Defined.

Lemma log_opens_with_init_witness :
  ∃ seg rest,
    storyLog (app (run rustyKeyRun)) = seg :: rest ∧ id seg = "init".
Proof.
  apply (log_opens_with_init_iff_key_confirmed rustyKeyRun). reflexivity.
Defined.

Lemma user_segments_witness :
  imageUrl (userSegment 1700000001000 1700000001000 "Search the room") = None
  ∧ (∃ t : Z,
       id (userSegment 1700000001000 1700000001000 "Search the room")
       = pretty t +:+ "-user")
  ∧ segmentView (userSegment 1700000001000 1700000001000 "Search the room")
    = UserBubble "Search the room".
Proof.
  apply (user_segments_never_get_an_image rustyKeyRun
           (userSegment 1700000001000 1700000001000 "Search the room")).
  - vm_compute. right. left.
  - reflexivity.
Defined.

Lemma turn_witness :
  sameButImage
    <$> storyLog
          (app (step (StoryResolves 0 rustyKeyHost 1700000001500 1700000001500)
                  (foldl (λ v e, step e v)
                     (step (Submit 1700000001000 1700000001000
                              "Search the room")
                        (run startedRun))
                     [TypeInput "hello"; ImageResolves 0 offlineHost])))
  = sameButImage
      <$> (storyLog (app (run startedRun))
           ++ [ userSegment 1700000001000 1700000001000 "Search the room";
                newSegment 1700000001500 1700000001500 rustyKeyDelta ])
  ∧ loading
      (app (step (StoryResolves 0 hostWithoutSelectedKey 1700000001500
                    1700000001500)
              (foldl (λ v e, step e v)
                 (step (Submit 1700000001000 1700000001000 "Search the room")
                    (run startedRun))
                 [ImageResolves 0 offlineHost])))
    = true.
Proof.
  split.
  - destruct (turn_appends_action_then_narrative (run startedRun) rustyKeyHost
                1700000001000 1700000001000 1700000001500 1700000001500
                "Search the room"
                [TypeInput "hello"; ImageResolves 0 offlineHost] 0
                (submittedCall (run startedRun) "Search the room")
                eq_refl eq_refl ltac:(repeat constructor) eq_refl eq_refl)
      as [Hreturns _].
    apply (Hreturns (storyResultValue rustyKeyDelta) rustyKeyDelta);
      reflexivity.
  - destruct (turn_appends_action_then_narrative (run startedRun)
                hostWithoutSelectedKey
                1700000001000 1700000001000 1700000001500 1700000001500
                "Search the room" [ImageResolves 0 offlineHost] 0
                (submittedCall (run startedRun) "Search the room")
                eq_refl eq_refl ltac:(repeat constructor) eq_refl eq_refl)
      as [_ Hraises].
    apply (Hraises "An API Key must be set when running in a browser").
    reflexivity.
Defined.

Lemma image_resolution_witness :
  imageResolution
    (app (step (StoryResolves 1 rustyKeyHost 1700000001500 1700000001500)
            (foldl (λ v e, step e v)
               (step (Submit 1700000001000 1700000001000 "Search the room")
                  (run startedRun))
               ([TypeInput "hello"] ++ [SelectResolution Size4K]))))
  = Size4K
  ∧ calls
      (step (StoryResolves 1 rustyKeyHost 1700000001500 1700000001500)
         (foldl (λ v e, step e v)
            (step (Submit 1700000001000 1700000001000 "Search the room")
               (run startedRun))
            ([TypeInput "hello"] ++ [SelectResolution Size4K])))
    = delete 1%nat
        (calls
           (foldl (λ v e, step e v)
              (step (Submit 1700000001000 1700000001000 "Search the room")
                 (run startedRun))
              ([TypeInput "hello"] ++ [SelectResolution Size4K])))
      ++ (if Js.truthy (image_prompt rustyKeyDelta)
          then [ImageCall (pretty 1700000001500%Z) (image_prompt rustyKeyDelta)
                  (imageResolution (app (run startedRun)))]
          else []).
Proof.
  apply (image_resolution_is_fixed_at_submission (run startedRun) rustyKeyHost
           1700000001000 1700000001000 1700000001500 1700000001500
           "Search the room" [TypeInput "hello"] Size4K 1
           (submittedCall (run startedRun) "Search the room")
           (storyResultValue rustyKeyDelta) rustyKeyDelta
           eq_refl eq_refl ltac:(repeat constructor) eq_refl eq_refl
           eq_refl eq_refl).
Defined.

Example image_resolution_sample :
  calls (run [ KeyCheckResolves 0 rustyKeyHost 1700000000000;
               Submit 1700000001000 1700000001000 "Search the room";
               SelectResolution Size4K;
               StoryResolves 1 rustyKeyHost 1700000001500 1700000001500 ])
  = [ ImageCall "init"
        "A dimly lit ancient stone chamber, cold atmosphere, dust motes in light beam."
        Size1K;
      ImageCall "1700000001500" "A rusty key under a flagstone." Size1K ].
Proof. vm_compute. reflexivity. Qed.

Lemma controls_witness :
  sendDisabled
    (app (step (StoryResolves 1 rustyKeyHost 1700000001500 1700000001500)
            (foldl (λ v e, step e v)
               (step (Submit 1700000001000 1700000001000 "Search the room")
                  (run startedRun))
               [TypeInput "hello"])))
  = true
  ∧ choiceDisabled
      (app (step (StoryResolves 1 hostWithoutSelectedKey 1700000001500
                    1700000001500)
              (foldl (λ v e, step e v)
                 (step (Submit 1700000001000 1700000001000 "Search the room")
                    (run startedRun))
                 [TypeInput "hello"])))
    = true.
Proof.
  split.
  - destruct (controls_during_and_after_a_turn (run startedRun) rustyKeyHost
                1700000001000 1700000001000 1700000001500 1700000001500
                "Search the room" [TypeInput "hello"] 1
                (submittedCall (run startedRun) "Search the room")
                eq_refl eq_refl ltac:(repeat constructor) eq_refl eq_refl)
      as (_ & Hreturns & _).
    apply (Hreturns (storyResultValue rustyKeyDelta) rustyKeyDelta);
      reflexivity.
  - destruct (controls_during_and_after_a_turn (run startedRun)
                hostWithoutSelectedKey
                1700000001000 1700000001000 1700000001500 1700000001500
                "Search the room" [TypeInput "hello"] 1
                (submittedCall (run startedRun) "Search the room")
                eq_refl eq_refl ltac:(repeat constructor) eq_refl eq_refl)
      as (_ & _ & Hraises).
    apply (Hraises "An API Key must be set when running in a browser").
    reflexivity.
Defined.

Lemma story_result_witness :
  generateStorySegment rustyKeyHost [] "Search the room" []
    "Awaken and find your purpose."
  = Js.Normal (storyResultValue rustyKeyDelta)
  ∧ generateStorySegment emptyObjectHost [] "Search the room" []
      "Awaken and find your purpose."
    = Js.Normal (Js.JObject []).
Proof.
  split.
  - eapply (story_result_is_parsed_or_fallback rustyKeyHost [] "Search the room"
              [] "Awaken and find your purpose.");
      [reflexivity|reflexivity|reflexivity|discriminate|reflexivity].
  - eapply (story_result_is_parsed_or_fallback emptyObjectHost []
              "Search the room" [] "Awaken and find your purpose.");
      [reflexivity|reflexivity|reflexivity|discriminate|reflexivity].
Defined.

Lemma older_history_witness :
  storyRequest offlineHost (["one"; "two"] ++ drop 2 sampleHistory)
    "Go on" [] "Awaken and find your purpose."
  = storyRequest offlineHost (Js.slice_last 6 (drop 2 sampleHistory))
      "Go on" [] "Awaken and find your purpose.".
Proof.
  apply (older_history_is_not_sent offlineHost ["one"; "two"]
           (drop 2 sampleHistory) "Go on" [] "Awaken and find your purpose.").
  simpl. lia.
Defined.

Lemma first_candidate_witness :
  generateSceneImage laterCandidateHost "A rusty key under a flagstone." Size1K
  = Js.Normal None.
Proof.
  destruct (only_the_first_candidate_is_read laterCandidateHost _
              "A rusty key under a flagstone." Size1K _ eq_refl eq_refl)
    as (_ & _ & Hfirst).
  destruct (Hfirst _ _ eq_refl) as [_ Hcontent].
  destruct (Hcontent _ eq_refl) as [_ Hparts].
  destruct (Hparts _ eq_refl) as [_ Hnone].
  apply Hnone. repeat constructor.
Defined.

Lemma story_fallback_witness :
  generateStorySegment offlineHost [] "Search the room" []
    "Awaken and find your purpose."
  = Js.Normal storyFallbackValue
  ∧ generateStorySegment hostWithoutSelectedKey [] "Search the room" []
      "Awaken and find your purpose."
    = Js.Throw "An API Key must be set when running in a browser".
Proof.
  split.
  - destruct (story_failures_inside_try_give_the_fallback offlineHost []
                "Search the room" [] "Awaken and find your purpose.")
      as [_ Hclient].
    destruct (Hclient _ eq_refl) as [_ Hfallback].
    destruct (Hfallback I) as [Hcall _]. exact Hcall.
  - destruct (story_failures_inside_try_give_the_fallback
                hostWithoutSelectedKey [] "Search the room" []
                "Awaken and find your purpose.")
      as [Hraises _].
    destruct (Hraises _ eq_refl) as [Hcall _]. exact Hcall.
Defined.

Lemma scene_image_witness :
  generateSceneImage imageHost "A rusty key under a flagstone." Size1K
  = Js.Normal (Some "data:image/png;base64,iVBORw0KGgo=")
  ∧ generateSceneImage offlineHost "A rusty key under a flagstone." Size1K
    = Js.Normal None
  ∧ generateSceneImage hostWithoutSelectedKey
      "A rusty key under a flagstone." Size1K
    = Js.Throw "An API Key must be set when running in a browser".
Proof.
  split_and!.
  - destruct (scene_image_failures_inside_try_give_null imageHost
                "A rusty key under a flagstone." Size1K)
      as (_ & Hclient & _).
    destruct (Hclient _ eq_refl) as (_ & _ & Himage).
    destruct (Himage _ _ []
                _
                [ {| GenAI.partText := Some "Here it is.";
                     GenAI.inlineData := None |} ]
                _ _
                [ {| GenAI.partText := None;
                     GenAI.inlineData :=
                       Some {| GenAI.mimeType := "image/jpeg";
                               GenAI.data := "/9j/4AAQSkZJRg==" |} |} ]
                eq_refl eq_refl eq_refl eq_refl
                ltac:(repeat constructor) eq_refl)
      as [Hcall _].
    exact Hcall.
  - destruct (scene_image_failures_inside_try_give_null offlineHost
                "A rusty key under a flagstone." Size1K)
      as (_ & Hclient & _).
    destruct (Hclient _ eq_refl) as (_ & Hrejected & _).
    exact (Hrejected "Failed to fetch" eq_refl).
  - destruct (scene_image_failures_inside_try_give_null
                hostWithoutSelectedKey "A rusty key under a flagstone." Size1K)
      as (Hraises & _).
    destruct (Hraises _ eq_refl) as [Hcall _]. exact Hcall.
Defined.

Lemma one_narrative_call_witness :
  storyCallsInFlight (run rustyKeyRun) = 0%nat
  ∧ (storyCallsInFlight (run keylessRun) ≤ 1)%nat.
Proof.
  split.
  - apply (one_narrative_call_at_a_time rustyKeyRun). reflexivity.
  - apply (one_narrative_call_at_a_time keylessRun).
Defined.

Lemma chat_witness :
  sendChatMessage offlineHost sampleTranscript "What does the key open?"
    torchState
  = Js.Normal (Some chatError)
  ∧ sendChatMessage rustyKeyHost sampleTranscript "What does the key open?"
      torchState
    = Js.Normal (Some "The key opens the north door.")
  ∧ sendChatMessage hostWithoutSelectedKey sampleTranscript
      "What does the key open?" torchState
    = Js.Throw "An API Key must be set when running in a browser".
Proof.
  split_and!.
  - destruct (chat_absorbs_failure offlineHost sampleTranscript
                "What does the key open?" torchState)
      as (_ & _ & Hclient).
    destruct (Hclient _ eq_refl) as (_ & Hcreate & _).
    apply (Hcreate "Failed to fetch"). reflexivity.
  - destruct (chat_absorbs_failure rustyKeyHost sampleTranscript
                "What does the key open?" torchState)
      as (_ & _ & Hclient).
    destruct (Hclient _ eq_refl) as (_ & _ & Hcreated).
    destruct (Hcreated _ eq_refl) as [_ Hsent].
    apply (Hsent _ eq_refl).
  - destruct (chat_absorbs_failure hostWithoutSelectedKey sampleTranscript
                "What does the key open?" torchState)
      as (_ & Hthrows & _).
    apply Hthrows. reflexivity.
Defined.

Lemma merge_order_witness :
  ∃ news,
    mergeInventory rustyKeyDelta ["torch"; "map"]
    = filter (λ x, x ∉ inventory_remove rustyKeyDelta) ["torch"; "map"] ++ news
    ∧ NoDup news
    ∧ ∀ x, x ∈ news →
           x ∈ inventory_add rustyKeyDelta ∧ (x ∉ ["torch"; "map"])
           ∧ (x ∉ inventory_remove rustyKeyDelta).
Proof.
  apply (merge_keeps_old_items_first rustyKeyDelta ["torch"; "map"]).
  apply (bool_decide_unpack _). vm_compute. exact I.
Defined.

Example merge_order_sample :
  mergeInventory rustyKeyDelta ["torch"; "map"] = ["torch"; "map"; "rusty key"].
Proof. reflexivity. Qed.

Lemma placeholder_witness :
  imageView
    (withImageUrl "data:image/png;base64,iVBORw0KGgo="
       (newSegment 1700000001500 1700000001500 rustyKeyDelta))
  = Picture "data:image/png;base64,iVBORw0KGgo=".
Proof.
  apply (placeholder_matches_image_call rustyKeyDelta 1700000001500
           1700000001500 1700000000000 Size1K initialAppState).
  discriminate.
Defined.

Lemma initial_segment_witness :
  storyLog
    (app (step (KeyCheckResolves 0 offlineHost 1700000000200)
            (run earlySubmitRun)))
  = [initialSegment 1700000000200]
  ∧ storyCallsInFlight
      (step (KeyCheckResolves 0 offlineHost 1700000000200)
         (run earlySubmitRun))
    = storyCallsInFlight (run earlySubmitRun).
Proof.
  destruct (initial_segment_replaces_the_log (run earlySubmitRun) 0 offlineHost
              1700000000200 Size1K true eq_refl eq_refl)
    as (Hlog & _ & _ & _ & _ & Hcalls).
  split; [exact Hlog|exact Hcalls].
Defined.

Lemma append_only_witness :
  (λ seg, (id seg, text seg, imagePrompt seg, choices seg, isUser seg,
           timestamp seg)) <$> storyLog (app (run rustyKeyRun))
  `prefix_of`
  (λ seg, (id seg, text seg, imagePrompt seg, choices seg, isUser seg,
           timestamp seg))
    <$> storyLog
          (app (step (Submit 1700000002000 1700000002000 "Use key")
                  (run rustyKeyRun))).
Proof.
  apply (log_is_append_only_once_started rustyKeyRun
           (Submit 1700000002000 1700000002000 "Use key")).
  reflexivity.
Defined.
